(** * Dataset stacks: a shallow embedding of [src/data/dataset.py]

    The class [Dataset] keeps an ordered list of named image sequences
    and three dictionaries of cached stacks.  This file embeds the
    sequence lookup, the [imgSeqs] setter and the two stack builders,
    [imgStackRGBOnly] and [imgStackDepthOnly], together with the part
    of numpy they use (shapes, [zeros], elementwise arithmetic, masked
    assignment, [clip] and the broadcasting assignment [a[i] = b]).

    Numbers.  The arrays are float32 in the source.  In the embedding of
    the builders an array element is the rational number it denotes:
    arithmetic is exact, and rounding, infinities and NaN are outside
    that model.  Division by [cube[2]] is the one operation that leaves
    the rationals when the divisor is zero (numpy gives an infinity or
    NaN there), so every statement about a value computed by that
    division assumes [cube[2]] not zero.  Where the exact value of a
    float32 result matters, module [float32] gives the elementwise part
    of the depth normalization on IEEE 754 binary32 values, with the
    scalars [com[2]] and [cube[2]] as binary64 Python floats. *)

From Stdlib Require Import QArith Qminmax Qfield Lqa Lia.
From Stdlib Require SpecFloat.
From stdpp Require Import base option list strings gmap fin_maps.

Local Open Scope nat_scope.

(** ** Exceptions and results *)

(** The exceptions the modelled code can raise. *)
Inductive exn : Type :=
| IndexError   (* list or tuple index out of range *)
| KeyError     (* missing dictionary key *)
| ValueError.  (* shape unpacking or broadcasting failure *)

Inductive result (A : Type) : Type :=
| Ok (a : A)
| Raise (e : exn).
Arguments Ok {A} a.
Arguments Raise {A} e.

#[global] Instance result_ret : MRet result := fun A a => Ok a.
#[global] Instance result_bind : MBind result := fun A B f m =>
  match m with
  | Ok a => f a
  | Raise e => Raise e
  end.

Definition of_option {A} (e : exn) (o : option A) : result A :=
  match o with
  | Some a => Ok a
  | None => Raise e
  end.

(** [for x in xs: acc = body(acc, x)], stopping at the first exception. *)
Fixpoint foldM {A B} (body : A → B → result A) (acc : A) (xs : list B)
  : result A :=
  match xs with
  | [] => Ok acc
  | x :: xs' => acc' ← body acc x; foldM body acc' xs'
  end.

(** ** The numpy fragment *)

Module numpy.

(** An array is its shape and its elements in row-major order. *)
Record ndarray : Type := mk_ndarray {
  shape : list nat;
  elems : list Q
}.

Definition size_of (sh : list nat) : nat := foldr Nat.mul 1 sh.

(** Arrays produced by numpy always hold [size_of shape] elements. *)
Definition wf (a : ndarray) : Prop := length (elems a) = size_of (shape a).

(** [numpy.zeros(sh, dtype='float32')] *)
Definition zeros (sh : list nat) : ndarray :=
  mk_ndarray sh (replicate (size_of sh) 0%Q).

(** Elementwise operations with a scalar: [a -= c], [a /= c], [a / c]. *)
Definition map_elems (f : Q → Q) (a : ndarray) : ndarray :=
  mk_ndarray (shape a) (f <$> elems a).

Definition sub_scalar (a : ndarray) (c : Q) : ndarray :=
  map_elems (fun x => (x - c)%Q) a.

Definition div_scalar (a : ndarray) (c : Q) : ndarray :=
  map_elems (fun x => (x / c)%Q) a.

(** [a[a == 0] = v] *)
Definition fill_where_zero (v : Q) (x : Q) : Q :=
  if Qeq_bool x 0 then v else x.

Definition set_where_zero (a : ndarray) (v : Q) : ndarray :=
  map_elems (fill_where_zero v) a.

(** [numpy.clip(a, lo, hi)] is [minimum(maximum(a, lo), hi)]. *)
Definition clip1 (lo hi x : Q) : Q := Qmin (Qmax x lo) hi.

Definition clip (a : ndarray) (lo hi : Q) : ndarray :=
  map_elems (clip1 lo hi) a.

(** *** Broadcasting assignment *)

(** [chunks k n l]: the first [n] consecutive blocks of [k] elements. *)
Fixpoint chunks {A} (k n : nat) (l : list A) : list (list A) :=
  match n with
  | 0 => []
  | S n' => take k l :: chunks k n' (drop k l)
  end.

(** Broadcast elements of shape [src] to shape [dst], the two shapes
    having the same number of axes: along each axis the source extent
    equals the target extent, or is 1 and the block is repeated. *)
Fixpoint broadcast_elems (src dst : list nat) (l : list Q)
  : option (list Q) :=
  match src, dst with
  | [], [] => Some l
  | s :: src', d :: dst' =>
      rows ← mapM (broadcast_elems src' dst') (chunks (size_of src') s l);
      if decide (s = d) then Some (concat rows)
      else if decide (s = 1) then Some (concat (replicate d (concat rows)))
      else None
  | _, _ => None
  end.

(** Bring a source shape to [n] axes: missing axes are added in front
    with extent 1; surplus axes are dropped from the front as long as
    their extent is 1. *)
Fixpoint strip_ones (k : nat) (sh : list nat) : option (list nat) :=
  match k with
  | 0 => Some sh
  | S k' =>
      match sh with
      | 1 :: sh' => strip_ones k' sh'
      | _ => None
      end
  end.

Definition align_shape (sh : list nat) (n : nat) : option (list nat) :=
  if decide (length sh ≤ n) then Some (replicate (n - length sh) 1 ++ sh)
  else strip_ones (length sh - n) sh.

(** Two shapes with the same number of axes fit when, along each axis,
    the source extent equals the target extent or is 1.  numpy compares
    the shapes before it moves any element, so the test does not depend
    on the elements (an axis of extent 0 hides nothing). *)
Fixpoint broadcastable (src dst : list nat) : bool :=
  match src, dst with
  | [], [] => true
  | s :: src', d :: dst' =>
      (bool_decide (s = d) || bool_decide (s = 1)) && broadcastable src' dst'
  | _, _ => false
  end.

Definition broadcast_to (b : ndarray) (dst : list nat) : option (list Q) :=
  sh ← align_shape (shape b) (length dst);
  if broadcastable sh dst then broadcast_elems sh dst (elems b) else None.

(** [a[i] = b] for an integer [i]: [b] is broadcast to [a.shape[1:]]
    and written over block [i] of [a]. *)
Definition setitem (a : ndarray) (i : nat) (b : ndarray) : result ndarray :=
  match shape a with
  | [] => Raise IndexError
  | n :: sh =>
      if decide (i < n) then
        match broadcast_to b sh with
        | None => Raise ValueError
        | Some row =>
            let k := size_of sh in
            Ok (mk_ndarray (shape a)
                  (take (i * k) (elems a) ++ row ++ drop (i * k + k) (elems a)))
        end
      else Raise IndexError
  end.

(** [a[idx]] for a full tuple of integer indices. *)
Fixpoint offset (sh idx : list nat) : option nat :=
  match sh, idx with
  | [], [] => Some 0
  | n :: sh', i :: idx' =>
      if decide (i < n) then o ← offset sh' idx'; Some (i * size_of sh' + o)
      else None
  | _, _ => None
  end.

Definition getitem (a : ndarray) (idx : list nat) : option Q :=
  o ← offset (shape a) idx; elems a !! o.

(** [h, w, _ = a.shape] and [j, d = a.shape] *)
Definition unpack3 (sh : list nat) : result (nat * nat * nat) :=
  match sh with
  | [h; w; c] => Ok (h, w, c)
  | _ => Raise ValueError
  end.

Definition unpack2 (sh : list nat) : result (nat * nat) :=
  match sh with
  | [j; d] => Ok (j, d)
  | _ => Raise ValueError
  end.

End numpy.

Import numpy.

(** ** The depth normalization on float32 values *)

Module float32.

(** Values: IEEE 754 binary32 for array elements, binary64 for the
    Python floats [com[2]], [cube[2]] and what is computed from them
    before it meets an array. *)
Definition add64 := SpecFloat.SFadd 53 1024.
Definition sub64 := SpecFloat.SFsub 53 1024.
Definition div64 := SpecFloat.SFdiv 53 1024.
Definition sub32 := SpecFloat.SFsub 24 128.
Definition div32 := SpecFloat.SFdiv 24 128.

(** [float(k)] for an integer [k]. *)
Definition of_int (k : Z) : SpecFloat.spec_float :=
  SpecFloat.binary_normalize 53 1024 k 0 false.

(** The literal [2.] *)
Definition two : SpecFloat.spec_float := of_int 2.

(** A binary64 scalar stored into, or combined with, a float32 array is
    first rounded to binary32. *)
Definition to_f32 (x : SpecFloat.spec_float) : SpecFloat.spec_float :=
  match x with
  | SpecFloat.S754_finite s m e =>
      SpecFloat.binary_normalize 24 128 (SpecFloat.cond_Zopp s (Zpos m)) e s
  | _ => x
  end.

(** [x == 0] on a float32 value: true of both zeros, false of NaN. *)
Definition is_zero (x : SpecFloat.spec_float) : bool :=
  SpecFloat.SFeqb x (SpecFloat.S754_zero false).

(** [a[a == 0] = v], [a -= c] and [a /= c] for a float32 array [a]
    (its elements in any order) and a binary64 scalar. *)
Definition set_where_zero32 (a : list SpecFloat.spec_float)
    (v : SpecFloat.spec_float) : list SpecFloat.spec_float :=
  (λ x, if is_zero x then to_f32 v else x) <$> a.

Definition sub_scalar32 (a : list SpecFloat.spec_float)
    (c : SpecFloat.spec_float) : list SpecFloat.spec_float :=
  (λ x, sub32 x (to_f32 c)) <$> a.

Definition div_scalar32 (a : list SpecFloat.spec_float)
    (c : SpecFloat.spec_float) : list SpecFloat.spec_float :=
  (λ x, div32 x (to_f32 c)) <$> a.

(** Lines 134-143 on the elements of one depth map, for [z = com[2]]
    and [c = cube[2]]. *)
Definition norm_depth32 (normZeroOne : bool) (z c : SpecFloat.spec_float)
    (dpt : list SpecFloat.spec_float) : list SpecFloat.spec_float :=
  if normZeroOne then
    let imgD := set_where_zero32 dpt (add64 z (div64 c two)) in
    let imgD := sub_scalar32 imgD (sub64 z (div64 c two)) in
    div_scalar32 imgD c
  else
    let imgD := set_where_zero32 dpt (add64 z (div64 c two)) in
    let imgD := sub_scalar32 imgD z in
    div_scalar32 imgD (div64 c two).

(** The value [1.0]. *)
Definition one : SpecFloat.spec_float := SpecFloat.S754_finite false 8388608 (-23).

End float32.

(** ** Frames, sequences and the dataset object *)

(** One sample of a sequence; the fields are the attributes the builders
    read.  [com] is indexed at position 2. *)
Record Frame : Type := mk_Frame {
  color : ndarray;
  dpt : ndarray;
  gtorig : ndarray;
  gt3Dcrop : ndarray;
  com : list Q
}.

(** [NamedImgSequence(name, data, config)]; [config] is a dictionary
    read at the key ['cube'], whose value is indexed at position 2. *)
Record NamedImgSequence : Type := mk_NamedImgSequence {
  name : string;
  data : list Frame;
  config : gmap string (list Q)
}.

(** The attributes of a [Dataset] instance. *)
Record Dataset : Type := mk_Dataset {
  localCache : bool;
  _imgSeqs : list NamedImgSequence;
  _imgStacks : gmap string ndarray;
  _dptStacks : gmap string ndarray;
  _labelStacks : gmap string ndarray
}.

(** What [imgSeq] returns: the sequence, or the empty list. *)
Inductive seq_or_empty : Type :=
| FoundSeq (s : NamedImgSequence)
| NoSeq.        (* [return []] *)

(** What a stack builder returns: a pair of stacks, or the empty list. *)
Inductive stacks_or_empty : Type :=
| Stacks (imgStack labelStack : ndarray)
| NoStacks.     (* [return []] *)

(** [Dataset.__init__(imgSeqs=None, localCache=True)] *)
Definition Dataset_init (imgSeqs : option (list NamedImgSequence))
    (localCache : bool) : Dataset :=
  {| localCache := localCache;
     _imgSeqs := match imgSeqs with None => [] | Some l => l end;
     _imgStacks := ∅;
     _dptStacks := ∅;
     _labelStacks := ∅ |}.

(** The scan [for seq in self._imgSeqs: if seq.name == seqName: ...]
    that [imgSeq] ends with [return seq] and the builders with [break]. *)
Fixpoint first_named (seqs : list NamedImgSequence) (seqName : string)
  : option NamedImgSequence :=
  match seqs with
  | [] => None
  | seq :: rest =>
      if decide (name seq = seqName) then Some seq
      else first_named rest seqName
  end.

(** [Dataset.imgSeq] *)
Definition imgSeq (self : Dataset) (seqName : string) : seq_or_empty :=
  match first_named (_imgSeqs self) seqName with
  | Some seq => FoundSeq seq
  | None => NoSeq
  end.

(** The [imgSeqs] setter. *)
Definition set_imgSeqs (self : Dataset) (value : list NamedImgSequence)
  : Dataset :=
  {| localCache := localCache self;
     _imgSeqs := value;
     _imgStacks := ∅;
     _dptStacks := ∅;
     _labelStacks := _labelStacks self |}.

(** [imgSeq.config['cube'][2]] *)
Definition cube2 (s : NamedImgSequence) : result Q :=
  cube ← of_option KeyError (config s !! "cube"%string);
  of_option IndexError (cube !! 2).

(** [frame.com[2]] *)
Definition com2 (f : Frame) : result Q := of_option IndexError (com f !! 2).

(** [numpy.clip(numpy.asarray(frame.gt3Dcrop) / (cube[2] / 2.), -1, 1)] *)
Definition norm_label (f : Frame) (c : Q) : ndarray :=
  clip (div_scalar (gt3Dcrop f) (c / 2)%Q) (-1)%Q 1%Q.

(** The image of one frame in [imgStackRGBOnly] (lines 96-102). *)
Definition norm_rgb (normZeroOne : bool) (f : Frame) : ndarray :=
  if normZeroOne then div_scalar (color f) 256%Q
  else div_scalar (sub_scalar (color f) 128%Q) 128%Q.

(** The scaling applied to a depth value once holes are filled
    (lines 137-138 and 142-143). *)
Definition scale_depth (normZeroOne : bool) (z c : Q) (x : Q) : Q :=
  if normZeroOne then ((x - (z - c / 2)) / c)%Q
  else ((x - z) / (c / 2))%Q.

(** The image of one frame in [imgStackDepthOnly] (lines 134-143). *)
Definition norm_depth (normZeroOne : bool) (s : NamedImgSequence) (f : Frame)
  : result ndarray :=
  if normZeroOne then
    z ← com2 f;
    c ← cube2 s;
    let imgD := set_where_zero (dpt f) (z + c / 2)%Q in
    let imgD := sub_scalar imgD (z - c / 2)%Q in
    Ok (div_scalar imgD c)
  else
    z ← com2 f;
    c ← cube2 s;
    let imgD := set_where_zero (dpt f) (z + c / 2)%Q in
    let imgD := sub_scalar imgD z in
    Ok (div_scalar imgD (c / 2)%Q).

(** The body of both loops after the frame image is computed:
    [imgStack[i] = img; labelStack[i] = clip(...)]. *)
Definition store_frame (s : NamedImgSequence) (f : Frame) (i : nat)
    (img : ndarray) (stacks : ndarray * ndarray) : result (ndarray * ndarray) :=
  imgStack ← setitem stacks.1 i img;
  c ← cube2 s;
  labelStack ← setitem stacks.2 i (norm_label f c);
  Ok (imgStack, labelStack).

(** Lines 88-105: the stacks of a sequence, colour images. *)
Definition compute_rgb (imgSeq : NamedImgSequence) (normZeroOne : bool)
  : result (ndarray * ndarray) :=
  let numImgs := length (data imgSeq) in
  f0 ← of_option IndexError (data imgSeq !! 0);
  '(h, w, _) ← unpack3 (shape (color f0));
  '(j, d) ← unpack2 (shape (gtorig f0));
  let imgStack := zeros [numImgs; 3; h; w] in
  let labelStack := zeros [numImgs; j; d] in
  foldM (fun stacks i =>
           f ← of_option IndexError (data imgSeq !! i);
           store_frame imgSeq f i (norm_rgb normZeroOne f) stacks)
        (imgStack, labelStack) (seq 0 numImgs).

(** Lines 126-146: the stacks of a sequence, depth images. *)
Definition compute_depth (imgSeq : NamedImgSequence) (normZeroOne : bool)
  : result (ndarray * ndarray) :=
  let numImgs := length (data imgSeq) in
  f0 ← of_option IndexError (data imgSeq !! 0);
  '(h, w) ← unpack2 (shape (dpt f0));
  '(j, d) ← unpack2 (shape (gtorig f0));
  let imgStack := zeros [numImgs; 1; h; w] in
  let labelStack := zeros [numImgs; j; d] in
  foldM (fun stacks i =>
           f ← of_option IndexError (data imgSeq !! i);
           imgD ← norm_depth normZeroOne imgSeq f;
           store_frame imgSeq f i imgD stacks)
        (imgStack, labelStack) (seq 0 numImgs).

(** [return cache[seqName], self._labelStacks[seqName]] *)
Definition cached_pair (cache labels : gmap string ndarray) (seqName : string)
  : result stacks_or_empty :=
  imgStack ← of_option KeyError (cache !! seqName);
  labelStack ← of_option KeyError (labels !! seqName);
  Ok (Stacks imgStack labelStack).

(** [Dataset.imgStackRGBOnly]: the value returned or the exception
    raised, and the object afterwards. *)
Definition imgStackRGBOnly (self : Dataset) (seqName : string)
    (normZeroOne : bool) : result stacks_or_empty * Dataset :=
  match first_named (_imgSeqs self) seqName with
  | None => (Ok NoStacks, self)
  | Some imgSeq =>
      match _imgStacks self !! seqName with
      | None =>
          match compute_rgb imgSeq normZeroOne with
          | Raise e => (Raise e, self)
          | Ok (imgStack, labelStack) =>
              if localCache self then
                let self' :=
                  {| localCache := localCache self;
                     _imgSeqs := _imgSeqs self;
                     _imgStacks := <[seqName := imgStack]> (_imgStacks self);
                     _dptStacks := _dptStacks self;
                     _labelStacks := <[seqName := labelStack]> (_labelStacks self) |} in
                (cached_pair (_imgStacks self') (_labelStacks self') seqName, self')
              else (Ok (Stacks imgStack labelStack), self)
          end
      | Some _ =>
          (cached_pair (_imgStacks self) (_labelStacks self) seqName, self)
      end
  end.

(** [Dataset.imgStackDepthOnly] *)
Definition imgStackDepthOnly (self : Dataset) (seqName : string)
    (normZeroOne : bool) : result stacks_or_empty * Dataset :=
  match first_named (_imgSeqs self) seqName with
  | None => (Ok NoStacks, self)
  | Some imgSeq =>
      match _dptStacks self !! seqName with
      | None =>
          match compute_depth imgSeq normZeroOne with
          | Raise e => (Raise e, self)
          | Ok (imgStack, labelStack) =>
              if localCache self then
                let self' :=
                  {| localCache := localCache self;
                     _imgSeqs := _imgSeqs self;
                     _imgStacks := _imgStacks self;
                     _dptStacks := <[seqName := imgStack]> (_dptStacks self);
                     _labelStacks := <[seqName := labelStack]> (_labelStacks self) |} in
                (cached_pair (_dptStacks self') (_labelStacks self') seqName, self')
              else (Ok (Stacks imgStack labelStack), self)
          end
      | Some _ =>
          (cached_pair (_dptStacks self) (_labelStacks self) seqName, self)
      end
  end.

(** ** Definitions used to state and prove the properties *)

(** The two builders differ in the cache they use and in the stacks
    they compute; statements about both are made over a modality. *)
Inductive modality : Type := RGB | Depth.

Definition compute (m : modality) : NamedImgSequence → bool → result (ndarray * ndarray) :=
  match m with
  | RGB => compute_rgb
  | Depth => compute_depth
  end.

Definition image_cache (m : modality) (self : Dataset) : gmap string ndarray :=
  match m with
  | RGB => _imgStacks self
  | Depth => _dptStacks self
  end.

Definition imgStack (m : modality)
  : Dataset → string → bool → result stacks_or_empty * Dataset :=
  match m with
  | RGB => imgStackRGBOnly
  | Depth => imgStackDepthOnly
  end.

Definition other (m : modality) : modality :=
  match m with
  | RGB => Depth
  | Depth => RGB
  end.

(** The same object with another list of sequences and the caches as
    they are (what mutating the list in place gives; not the setter). *)
Definition with_seqs (self : Dataset) (seqs : list NamedImgSequence) : Dataset :=
  {| localCache := localCache self;
     _imgSeqs := seqs;
     _imgStacks := _imgStacks self;
     _dptStacks := _dptStacks self;
     _labelStacks := _labelStacks self |}.

(** The object after a builder has stored its two stacks (lines 108-109
    and 149-150). *)
Definition cache_put (m : modality) (self : Dataset) (seqName : string)
    (imgStack labelStack : ndarray) : Dataset :=
  match m with
  | RGB =>
      {| localCache := localCache self;
         _imgSeqs := _imgSeqs self;
         _imgStacks := <[seqName := imgStack]> (_imgStacks self);
         _dptStacks := _dptStacks self;
         _labelStacks := <[seqName := labelStack]> (_labelStacks self) |}
  | Depth =>
      {| localCache := localCache self;
         _imgSeqs := _imgSeqs self;
         _imgStacks := _imgStacks self;
         _dptStacks := <[seqName := imgStack]> (_dptStacks self);
         _labelStacks := <[seqName := labelStack]> (_labelStacks self) |}
  end.

(** The loop of a builder seen one stack at a time: [g] computes the
    array of a frame, which is assigned at index [i]. *)
Definition fill_body (fs : list Frame) (g : Frame → result ndarray)
    (a : ndarray) (i : nat) : result ndarray :=
  f ← of_option IndexError (fs !! i);
  x ← g f;
  setitem a i x.

(** The loop body of both builders, over the image computation [g]. *)
Definition pair_body (s : NamedImgSequence) (g : Frame → result ndarray)
    (stacks : ndarray * ndarray) (i : nat) : result (ndarray * ndarray) :=
  f ← of_option IndexError (data s !! i);
  img ← g f;
  store_frame s f i img stacks.

Definition label_of (s : NamedImgSequence) (f : Frame) : result ndarray :=
  c ← cube2 s; Ok (norm_label f c).

(** A depth value after hole filling and scaling. *)
Definition depth_value (normZeroOne : bool) (z c : Q) (x : Q) : Q :=
  scale_depth normZeroOne z c (fill_where_zero (z + c / 2)%Q x).

(** Frames as the builders expect them: arrays hold as many elements as
    their shape says, depth maps are [h] by [w], both joint arrays are
    [j] by [d], and [com] has a third component. *)
Definition depth_frame_ok (h w j d : nat) (f : Frame) : Prop :=
  shape (dpt f) = [h; w] ∧ wf (dpt f) ∧
  shape (gtorig f) = [j; d] ∧
  shape (gt3Dcrop f) = [j; d] ∧ wf (gt3Dcrop f) ∧
  length (com f) = 3.

(** Joint arrays alone, for statements about labels in either modality. *)
Definition label_frame_ok (j d : nat) (f : Frame) : Prop :=
  shape (gtorig f) = [j; d] ∧
  shape (gt3Dcrop f) = [j; d] ∧ wf (gt3Dcrop f).

(** [Dataset.imgSeqs], the property getter. *)
Definition get_imgSeqs (self : Dataset) : list NamedImgSequence := _imgSeqs self.

(** The objects a program can reach through the methods of the class:
    construction, stack requests in either modality, and the setter. *)
Inductive reachable : Dataset → Prop :=
| reach_init imgSeqs lc : reachable (Dataset_init imgSeqs lc)
| reach_request m self n nz :
    reachable self → reachable (imgStack m self n nz).2
| reach_set self value :
    reachable self → reachable (set_imgSeqs self value).

(** Every cached image stack is a stack computed, under some mode, from
    the sequence its name now resolves to, and the label stack cached
    under that name is the one computed with it. *)
Definition coherent (self : Dataset) : Prop :=
  ∀ m n X,
    image_cache m self !! n = Some X →
    ∃ s nz L,
      first_named (_imgSeqs self) n = Some s ∧
      compute m s nz = Ok (X, L) ∧
      _labelStacks self !! n = Some L.

(** Frames for which the colour builder returns: colour images of shape
    3 by 3 by 3, the one shape the assignment into the stack accepts
    for three channels, and joint arrays [j] by [d]. *)
Definition rgb_frame_ok (j d : nat) (f : Frame) : Prop :=
  shape (color f) = [3; 3; 3] ∧ wf (color f) ∧ label_frame_ok j d f.

(** Frames of one shape, for either builder. *)
Definition frames_ok (m : modality) (h w j d : nat) (f : Frame) : Prop :=
  match m with
  | RGB => h = 3 ∧ w = 3 ∧ rgb_frame_ok j d f
  | Depth => depth_frame_ok h w j d f
  end.

(** ** Sample data *)

(** An array with integer entries. *)
Definition array_of (sh : list nat) (zs : list Z) : ndarray :=
  mk_ndarray sh (inject_Z <$> zs).

(** A frame whose colour image is 3 by 3, the one extent for which the
    assignment into the colour stack is accepted; the depth map has a
    hole at pixel (0, 0). *)
Definition frame33 : Frame :=
  {| color := array_of [3; 3; 3] (Z.of_nat <$> seq 0 27);
     dpt := array_of [2; 2] [0; 650; 700; 800]%Z;
     gtorig := array_of [1; 3] [320; 240; 700]%Z;
     gt3Dcrop := array_of [1; 3] [50; -200; 100]%Z;
     com := [320; 240; 700]%Q |}.

(** A frame whose colour image is 2 by 2. *)
Definition frame22 : Frame :=
  {| color := array_of [2; 2; 3] [0; 16; 32; 48; 64; 80; 96; 128; 160; 192; 224; 255]%Z;
     dpt := array_of [2; 2] [610; 0; 790; 705]%Z;
     gtorig := array_of [1; 3] [300; 200; 710]%Z;
     gt3Dcrop := array_of [1; 3] [-20; 30; 250]%Z;
     com := [300; 200; 710]%Q |}.

Definition cube200 : gmap string (list Q) :=
  {[ "cube"%string := [200; 200; 200]%Q ]}.

Definition seq_a : NamedImgSequence :=
  {| name := "a"; data := [frame33]; config := cube200 |}.
Definition seq_b : NamedImgSequence :=
  {| name := "b"; data := [frame22; frame33]; config := cube200 |}.
Definition seq_empty : NamedImgSequence :=
  {| name := "e"; data := []; config := cube200 |}.
(** A second sequence named ["a"]. *)
Definition seq_a_again : NamedImgSequence :=
  {| name := "a"; data := [frame22]; config := cube200 |}.

Definition sample : Dataset :=
  Dataset_init (Some [seq_b; seq_a; seq_empty; seq_a_again]) true.

(** A sequence whose configuration has no ['cube'] entry. *)
Definition seq_nocube : NamedImgSequence :=
  {| name := "n"; data := [frame22]; config := ∅ |}.

(** A frame whose [com] has two components only. *)
Definition frame_shortcom : Frame :=
  {| color := color frame22;
     dpt := dpt frame22;
     gtorig := gtorig frame22;
     gt3Dcrop := gt3Dcrop frame22;
     com := [300; 200]%Q |}.

Definition seq_shortcom : NamedImgSequence :=
  {| name := "c"; data := [frame_shortcom]; config := cube200 |}.

(** A frame whose depth map is 3 by 2. *)
Definition frame32 : Frame :=
  {| color := color frame22;
     dpt := array_of [3; 2] [610; 0; 790; 705; 700; 650]%Z;
     gtorig := gtorig frame22;
     gt3Dcrop := gt3Dcrop frame22;
     com := com frame22 |}.

(** Depth maps of two shapes in one sequence. *)
Definition seq_mixed : NamedImgSequence :=
  {| name := "m"; data := [frame22; frame32]; config := cube200 |}.

Definition sample_bad : Dataset :=
  Dataset_init (Some [seq_nocube; seq_shortcom; seq_mixed]) true.

(** The Python floats [300.2] and [200.], and a float32 depth map with
    a hole at its first pixel. *)
Definition z300_2 : SpecFloat.spec_float :=
  float32.div64 (float32.of_int 3002) (float32.of_int 10).
Definition c200 : SpecFloat.spec_float := float32.of_int 200.
Definition dpt_hole : list SpecFloat.spec_float :=
  [SpecFloat.S754_zero false; float32.to_f32 (float32.of_int 250)].

(** ** Facts about the numpy fragment *)

Section chunks.
Context {A : Type}.
Implicit Types l : list A.

Lemma chunks_lengths k n l :
  length l = n * k → Forall (λ c, length c = k) (chunks k n l).
Proof.
  revert l. induction n as [|n IH]; intros l Hl; simpl; [constructor|].
  constructor.
  - rewrite length_take. lia.
  - apply IH. rewrite length_drop. lia.
Qed.

Lemma concat_chunks k n l :
  length l = n * k → concat (chunks k n l) = l.
Proof.
  revert l. induction n as [|n IH]; intros l Hl; simpl.
  - destruct l; [done | simpl in Hl; lia].
  - rewrite IH; [apply take_drop|]. rewrite length_drop. lia.
Qed.

Lemma chunks_Forall (P : A → Prop) k n l :
  Forall P l → Forall (Forall P) (chunks k n l).
Proof.
  revert l. induction n as [|n IH]; intros l Hl; simpl; constructor.
  - by apply Forall_take.
  - apply IH. by apply Forall_drop.
Qed.
End chunks.

Lemma size_of_cons n sh : size_of (n :: sh) = n * size_of sh.
Proof. reflexivity. Qed.

Lemma broadcast_elems_same sh l :
  length l = size_of sh → broadcast_elems sh sh l = Some l.
Proof.
  revert l. induction sh as [|n sh IH]; intros l Hl; [done|].
  rewrite size_of_cons in Hl. simpl.
  assert (mapM (broadcast_elems sh sh) (chunks (size_of sh) n l)
          = Some (chunks (size_of sh) n l)) as ->.
  { apply mapM_Some_2.
    pose proof (chunks_lengths (size_of sh) n l Hl) as Hc.
    induction Hc; constructor; auto. }
  simpl. rewrite decide_True by done. by rewrite concat_chunks.
Qed.

Lemma mapM_Forall_rows {A B} (f : list A → option (list B))
    (P : A → Prop) (R : B → Prop) xs rows :
  mapM f xs = Some rows →
  (∀ x y, f x = Some y → Forall P x → Forall R y) →
  Forall (Forall P) xs → Forall (Forall R) rows.
Proof.
  intros Hm Hf Hxs. apply mapM_Some_1 in Hm.
  induction Hm as [|x y xs ys Hxy _ IH]; [constructor|].
  inversion Hxs; subst. constructor; eauto.
Qed.

Lemma broadcast_elems_Forall (P : Q → Prop) src dst l r :
  broadcast_elems src dst l = Some r → Forall P l → Forall P r.
Proof.
  revert dst l r. induction src as [|s src IH]; intros [|d dst] l r; simpl; try done.
  - by intros [= ->].
  - intros Hb Hl.
    destruct (mapM _ _) as [rows|] eqn:Hrows; [|done]. simpl in Hb.
    assert (Forall P (concat rows)) as Hc.
    { apply Forall_concat.
      eapply mapM_Forall_rows; [exact Hrows | by eauto |].
      by apply chunks_Forall. }
    repeat case_decide; simplify_eq; try done.
    apply Forall_concat. by apply Forall_replicate.
Qed.

Lemma broadcast_to_Forall (P : Q → Prop) b dst r :
  broadcast_to b dst = Some r → Forall P (elems b) → Forall P r.
Proof.
  unfold broadcast_to. destruct (align_shape _ _) as [sh|]; [|done]. simpl.
  destruct (broadcastable sh dst); [|done].
  apply broadcast_elems_Forall.
Qed.

Lemma broadcastable_refl sh : broadcastable sh sh = true.
Proof.
  induction sh as [|n sh IH]; [done|].
  simpl. by rewrite bool_decide_eq_true_2, IH.
Qed.

(** An array of the target shape is written as it is. *)
Lemma broadcast_to_same b :
  wf b → broadcast_to b (shape b) = Some (elems b).
Proof.
  intros Hwf. unfold broadcast_to, align_shape.
  rewrite decide_True by done. rewrite Nat.sub_diag. simpl.
  rewrite broadcastable_refl. by apply broadcast_elems_same.
Qed.

(** So is an array that lacks the leading axis of extent 1. *)
Lemma broadcast_to_lead1 b :
  wf b → broadcast_to b (1 :: shape b) = Some (elems b).
Proof.
  intros Hwf. unfold broadcast_to, align_shape.
  rewrite decide_True by (simpl; lia).
  replace (length (1 :: shape b) - length (shape b)) with 1 by (simpl; lia).
  cbn [replicate app mbind option_bind].
  rewrite (broadcastable_refl (1 :: shape b)).
  simpl. rewrite take_ge by (rewrite Hwf; lia).
  rewrite broadcast_elems_same by done. simpl.
  by rewrite app_nil_r.
Qed.

Lemma setitem_block n sh pre old post i b row :
  length pre = i * size_of sh → length old = size_of sh → i < n →
  broadcast_to b sh = Some row →
  setitem (mk_ndarray (n :: sh) (pre ++ old ++ post)) i b
  = Ok (mk_ndarray (n :: sh) (pre ++ row ++ post)).
Proof.
  intros Hpre Hold Hi Hb. unfold setitem. simpl.
  rewrite decide_True by done. rewrite Hb. do 2 f_equal.
  rewrite take_app_length' by done. do 2 f_equal.
  rewrite (app_assoc pre old post).
  apply drop_app_length'. rewrite length_app. lia.
Qed.

Lemma setitem_Forall (P : Q → Prop) a i b a' :
  setitem a i b = Ok a' →
  Forall P (elems a) → Forall P (elems b) → Forall P (elems a').
Proof.
  unfold setitem. destruct (shape a) as [|n sh]; [done|].
  case_decide; [|done].
  destruct (broadcast_to b sh) as [row|] eqn:Hb; [|done].
  intros [= <-] Ha Hbs. simpl.
  apply Forall_app; split; [by apply Forall_take|].
  apply Forall_app; split; [|by apply Forall_drop].
  by eapply broadcast_to_Forall.
Qed.

Lemma lookup_concat_uniform {A} (rows : list (list A)) k i o :
  Forall (λ r, length r = k) rows → o < k →
  concat rows !! (i * k + o) = rows !! i ≫= (λ r, r !! o).
Proof.
  intros Hrows Ho. revert i.
  induction Hrows as [|r rows Hr _ IH]; intros i; [done|].
  destruct i as [|i]; simpl.
  - apply lookup_app_l. lia.
  - rewrite lookup_app_r by lia. rewrite <- IH. f_equal. lia.
Qed.

Lemma offset_lt sh idx o : offset sh idx = Some o → o < size_of sh.
Proof.
  revert idx o. induction sh as [|n sh IH]; intros [|i idx] o; simpl; try done.
  - intros [= <-]. lia.
  - case_decide; [|done].
    destruct (offset sh idx) as [o'|] eqn:Ho; [|done].
    intros [= <-]. apply IH in Ho. nia.
Qed.

(** Reading a stack made of one block per frame. *)
Lemma getitem_blocks (fs : list Frame) (r : Frame → list Q) sh i idx f :
  Forall (λ f, length (r f) = size_of sh) fs →
  fs !! i = Some f →
  getitem (mk_ndarray (length fs :: sh) (concat (r <$> fs))) (i :: idx)
  = o ← offset sh idx; r f !! o.
Proof.
  intros Hlen Hf. unfold getitem. simpl.
  rewrite decide_True by (by eapply lookup_lt_Some).
  destruct (offset sh idx) as [o|] eqn:Ho; [|done]. simpl.
  rewrite lookup_concat_uniform.
  - by rewrite list_lookup_fmap, Hf.
  - by apply Forall_fmap.
  - by eapply offset_lt.
Qed.

(** ** Facts about the loops *)

Lemma foldM_cons {A B} (body : A → B → result A) acc x xs :
  foldM body acc (x :: xs) = acc' ← body acc x; foldM body acc' xs.
Proof. reflexivity. Qed.

Lemma fill_body_eq fs g a i :
  fill_body fs g a i
  = f ← of_option IndexError (fs !! i); x ← g f; setitem a i x.
Proof. reflexivity. Qed.

Lemma label_of_eq s f c : cube2 s = Ok c → label_of s f = Ok (norm_label f c).
Proof. unfold label_of. by intros ->. Qed.

Lemma label_of_raise s f e : cube2 s = Raise e → label_of s f = Raise e.
Proof. unfold label_of. by intros ->. Qed.

Lemma pair_body_eq s g st i :
  pair_body s g st i
  = f ← of_option IndexError (data s !! i); img ← g f; store_frame s f i img st.
Proof. reflexivity. Qed.

Section fill.
Variables (fs : list Frame) (g : Frame → result ndarray).
Variables (sh : list nat) (r : Frame → list Q).
Hypothesis rows_ok : ∀ f, f ∈ fs →
  ∃ x, g f = Ok x ∧ broadcast_to x sh = Some (r f) ∧
       length (r f) = size_of sh.

Lemma rows_length (l : list Frame) :
  l ⊆ fs → length (concat (r <$> l)) = length l * size_of sh.
Proof.
  induction l as [|f l IH]; intros Hl; [done|].
  csimpl. rewrite length_app, IH by set_solver.
  destruct (rows_ok f) as (x & _ & _ & ->); [set_solver | done].
Qed.

Lemma fill_from done todo :
  fs = done ++ todo →
  foldM (fill_body fs g)
    (mk_ndarray (length fs :: sh)
       (concat (r <$> done) ++ replicate (length todo * size_of sh) 0%Q))
    (seq (length done) (length todo))
  = Ok (mk_ndarray (length fs :: sh) (concat (r <$> fs))).
Proof.
  revert done. induction todo as [|f todo IH]; intros done Hfs.
  - simpl. rewrite app_nil_r in *. by subst.
  - cbn [length seq]. rewrite foldM_cons, fill_body_eq.
    assert (fs !! length done = Some f) as -> by (subst; apply list_lookup_middle; done).
    cbn [of_option mbind result_bind].
    destruct (rows_ok f) as (x & -> & Hb & Hlen); [subst; set_solver|].
    cbn [mbind result_bind].
    change (S (length todo) * size_of sh) with (size_of sh + length todo * size_of sh).
    rewrite replicate_add.
    erewrite (setitem_block _ _ (concat (r <$> done))); [| |by rewrite length_replicate| |exact Hb].
    + simpl. specialize (IH (done ++ [f])).
      rewrite length_app, fmap_app, concat_app in IH. simpl in IH.
      rewrite app_nil_r, Nat.add_1_r in IH.
      rewrite <- (app_assoc (concat (r <$> done))) in IH.
      apply IH. by rewrite <- app_assoc.
    + apply rows_length. subst. set_solver.
    + subst. rewrite length_app. simpl. lia.
Qed.

(** With rows that fit, the loop fills the zero stack block by block. *)
Lemma fill_ok :
  foldM (fill_body fs g) (zeros (length fs :: sh)) (seq 0 (length fs))
  = Ok (mk_ndarray (length fs :: sh) (concat (r <$> fs))).
Proof. apply (fill_from [] fs). done. Qed.
End fill.

(** Whatever the shapes, a property of the initial elements and of the
    elements of every frame array holds of the stack the loop returns. *)
Lemma fill_Forall (P : Q → Prop) fs g idxs a a' :
  foldM (fill_body fs g) a idxs = Ok a' →
  (∀ f x, f ∈ fs → g f = Ok x → Forall P (elems x)) →
  Forall P (elems a) → Forall P (elems a').
Proof.
  intros Hfold Hg. revert a Hfold.
  induction idxs as [|i idxs IH]; intros a; [by intros [= <-]|].
  - rewrite foldM_cons, fill_body_eq.
    destruct (fs !! i) as [f|] eqn:Hf; [|done]. simpl.
    destruct (g f) as [x|] eqn:Hx; [|done]. simpl.
    destruct (setitem a i x) as [a1|] eqn:Hset; [|done]. simpl.
    intros Hfold Ha. apply (IH a1 Hfold).
    eapply setitem_Forall; [exact Hset | done |].
    eapply Hg; [|exact Hx]. by eapply list_elem_of_lookup_2.
Qed.

(** The loop over both stacks succeeds exactly when the loop over each
    stack does, with the same stacks. *)
Lemma pair_loop_split s g idxs a l a' l' :
  foldM (pair_body s g) (a, l) idxs = Ok (a', l') →
  foldM (fill_body (data s) g) a idxs = Ok a' ∧
  foldM (fill_body (data s) (label_of s)) l idxs = Ok l'.
Proof.
  revert a l. induction idxs as [|i idxs IH]; intros a l.
  - by intros [= <- <-].
  - rewrite !foldM_cons, pair_body_eq, !fill_body_eq.
    unfold store_frame.
    destruct (data s !! i) as [f|]; [|done]. simpl.
    destruct (g f) as [x|]; [|done]. simpl.
    destruct (setitem a i x) as [a1|]; [|done]. simpl.
    destruct (cube2 s) as [c|e] eqn:Hc;
      [rewrite (label_of_eq _ _ _ Hc) | by rewrite (label_of_raise _ _ _ Hc)].
    simpl. destruct (setitem l i _) as [l1|]; [|done]. simpl.
    apply IH.
Qed.

Lemma pair_loop_join s g idxs a l a' l' :
  foldM (fill_body (data s) g) a idxs = Ok a' →
  foldM (fill_body (data s) (label_of s)) l idxs = Ok l' →
  foldM (pair_body s g) (a, l) idxs = Ok (a', l').
Proof.
  revert a l. induction idxs as [|i idxs IH]; intros a l.
  - by intros [= <-] [= <-].
  - rewrite !foldM_cons, pair_body_eq, !fill_body_eq.
    unfold store_frame.
    destruct (data s !! i) as [f|]; [|done]. simpl.
    destruct (g f) as [x|]; [|done]. simpl.
    destruct (setitem a i x) as [a1|]; [|done]. simpl.
    destruct (cube2 s) as [c|e] eqn:Hc;
      [rewrite (label_of_eq _ _ _ Hc) | by rewrite (label_of_raise _ _ _ Hc)].
    simpl. destruct (setitem l i _) as [l1|]; [|done]. simpl.
    apply IH.
Qed.

(** ** Facts about the scalar formulas *)

Lemma clip1_bounds x : (-1 <= clip1 (-1) 1 x <= 1)%Q.
Proof.
  unfold clip1. split.
  - apply Q.min_glb; [apply Q.le_max_r | done].
  - apply Q.le_min_r.
Qed.

Lemma clip1_high x : (1 < x)%Q → (clip1 (-1) 1 x == 1)%Q.
Proof.
  intros Hx. unfold clip1. apply Q.min_r.
  apply Qle_trans with x; [by apply Qlt_le_weak | apply Q.le_max_l].
Qed.

Lemma clip1_low x : (x < -1)%Q → (clip1 (-1) 1 x == -1)%Q.
Proof.
  intros Hx. unfold clip1.
  assert (Qmax x (-1) == -1)%Q as Hm by (apply Q.max_r; lra).
  rewrite Q.min_l; [done | rewrite Hm; done].
Qed.


(** ** Facts about the lookup *)

Lemma first_named_None seqs n :
  first_named seqs n = None ↔ Forall (λ s, name s ≠ n) seqs.
Proof.
  induction seqs as [|s seqs IH]; simpl.
  - split; [constructor | done].
  - case_decide as Hn.
    + split; [done|]. intros H. inversion H; subst. done.
    + rewrite IH. split; [by constructor|]. intros H. by inversion H.
Qed.

Lemma first_named_middle pre s post n :
  Forall (λ x, name x ≠ n) pre → name s = n →
  first_named (pre ++ s :: post) n = Some s.
Proof.
  intros Hpre Hs. induction Hpre as [|x pre Hx _ IH]; simpl.
  - by rewrite decide_True.
  - by rewrite decide_False.
Qed.

(** ** Facts about the builders *)

Lemma cached_pair_put cache labels n I L :
  cached_pair (<[n := I]> cache) (<[n := L]> labels) n = Ok (Stacks I L).
Proof. unfold cached_pair. by rewrite !lookup_insert_eq. Qed.

Section requests.
Variables (m : modality) (self : Dataset) (n : string) (nz : bool).

Lemma imgStack_unknown :
  first_named (_imgSeqs self) n = None →
  imgStack m self n nz = (Ok NoStacks, self).
Proof.
  intros Hn. destruct m; simpl;
    unfold imgStackRGBOnly, imgStackDepthOnly; by rewrite Hn.
Qed.

Lemma imgStack_hit s X :
  first_named (_imgSeqs self) n = Some s →
  image_cache m self !! n = Some X →
  imgStack m self n nz
  = (cached_pair (image_cache m self) (_labelStacks self) n, self).
Proof.
  intros Hn Hc. destruct m; simpl in *;
    unfold imgStackRGBOnly, imgStackDepthOnly; by rewrite Hn, Hc.
Qed.

Lemma imgStack_miss s I L :
  first_named (_imgSeqs self) n = Some s →
  image_cache m self !! n = None →
  compute m s nz = Ok (I, L) →
  imgStack m self n nz
  = (Ok (Stacks I L),
     if localCache self then cache_put m self n I L else self).
Proof.
  intros Hn Hc Hs. destruct m; simpl in *;
    unfold imgStackRGBOnly, imgStackDepthOnly; rewrite Hn, Hc, Hs;
    destruct (localCache self); simpl; by rewrite ?cached_pair_put.
Qed.

Lemma imgStack_miss_raise s e :
  first_named (_imgSeqs self) n = Some s →
  image_cache m self !! n = None →
  compute m s nz = Raise e →
  imgStack m self n nz = (Raise e, self).
Proof.
  intros Hn Hc Hs. destruct m; simpl in *;
    unfold imgStackRGBOnly, imgStackDepthOnly; by rewrite Hn, Hc, Hs.
Qed.

(** A request that returns stacks on a miss returns the computed ones. *)
Lemma imgStack_miss_inv s I L :
  first_named (_imgSeqs self) n = Some s →
  image_cache m self !! n = None →
  (imgStack m self n nz).1 = Ok (Stacks I L) →
  compute m s nz = Ok (I, L).
Proof.
  intros Hn Hc Hr. destruct (compute m s nz) as [[I' L']|e] eqn:Hs.
  - rewrite (imgStack_miss s I' L') in Hr by done. simpl in Hr. congruence.
  - by rewrite (imgStack_miss_raise s e) in Hr.
Qed.
End requests.

(** The loops behind [compute]. *)
Lemma compute_rgb_loops s nz I L :
  compute_rgb s nz = Ok (I, L) →
  ∃ f0 h w c j d,
    data s !! 0 = Some f0 ∧ shape (color f0) = [h; w; c] ∧
    shape (gtorig f0) = [j; d] ∧
    foldM (fill_body (data s) (λ f, Ok (norm_rgb nz f)))
      (zeros [length (data s); 3; h; w]) (seq 0 (length (data s))) = Ok I ∧
    foldM (fill_body (data s) (label_of s))
      (zeros [length (data s); j; d]) (seq 0 (length (data s))) = Ok L.
Proof.
  unfold compute_rgb.
  destruct (data s !! 0) as [f0|] eqn:H0; [|done]. simpl.
  destruct (shape (color f0)) as [|h [|w [|c [|]]]] eqn:Hc; try done. simpl.
  destruct (shape (gtorig f0)) as [|j [|d [|]]] eqn:Hg; try done. simpl.
  intros Hloop.
  apply (pair_loop_split s (λ f, Ok (norm_rgb nz f))) in Hloop.
  exists f0, h, w, c, j, d. by destruct Hloop.
Qed.

Lemma compute_depth_loops s nz I L :
  compute_depth s nz = Ok (I, L) →
  ∃ f0 h w j d,
    data s !! 0 = Some f0 ∧ shape (dpt f0) = [h; w] ∧
    shape (gtorig f0) = [j; d] ∧
    foldM (fill_body (data s) (norm_depth nz s))
      (zeros [length (data s); 1; h; w]) (seq 0 (length (data s))) = Ok I ∧
    foldM (fill_body (data s) (label_of s))
      (zeros [length (data s); j; d]) (seq 0 (length (data s))) = Ok L.
Proof.
  unfold compute_depth.
  destruct (data s !! 0) as [f0|] eqn:H0; [|done]. simpl.
  destruct (shape (dpt f0)) as [|h [|w [|]]] eqn:Hc; try done. simpl.
  destruct (shape (gtorig f0)) as [|j [|d [|]]] eqn:Hg; try done. simpl.
  intros Hloop.
  apply (pair_loop_split s (norm_depth nz s)) in Hloop.
  exists f0, h, w, j, d. by destruct Hloop.
Qed.

Lemma compute_label_loop m s nz I L :
  compute m s nz = Ok (I, L) →
  ∃ f0 j d,
    data s !! 0 = Some f0 ∧ shape (gtorig f0) = [j; d] ∧
    foldM (fill_body (data s) (label_of s))
      (zeros [length (data s); j; d]) (seq 0 (length (data s))) = Ok L.
Proof.
  destruct m; simpl; intros Hc.
  - apply compute_rgb_loops in Hc as (f0 & h & w & c & j & d & ? & ? & ? & ? & ?).
    by exists f0, j, d.
  - apply compute_depth_loops in Hc as (f0 & h & w & j & d & ? & ? & ? & ? & ?).
    by exists f0, j, d.
Qed.

Lemma compute_empty m s nz : data s = [] → compute m s nz = Raise IndexError.
Proof.
  intros Hd. destruct m; simpl; unfold compute_rgb, compute_depth;
    by rewrite Hd.
Qed.

(** *** Labels *)

Lemma norm_label_elems f c :
  elems (norm_label f c)
  = (λ g, clip1 (-1) 1 (g / (c / 2))%Q) <$> elems (gt3Dcrop f).
Proof.
  unfold norm_label, clip, div_scalar, map_elems. simpl.
  by rewrite <- list_fmap_compose.
Qed.

Lemma norm_label_wf f c : wf (gt3Dcrop f) → wf (norm_label f c).
Proof.
  unfold wf. rewrite norm_label_elems, length_fmap. done.
Qed.

(** *** Depth images *)

Lemma norm_depth_eq nz s f z c :
  com2 f = Ok z → cube2 s = Ok c →
  norm_depth nz s f
  = Ok (mk_ndarray (shape (dpt f)) (depth_value nz z c <$> elems (dpt f))).
Proof.
  intros Hz Hc. unfold norm_depth. rewrite Hz, Hc.
  destruct nz; simpl; unfold div_scalar, sub_scalar, set_where_zero, map_elems;
    simpl; by rewrite <- !list_fmap_compose.
Qed.

Lemma com2_default f : length (com f) = 3 → com2 f = Ok (default 0%Q (com f !! 2)).
Proof.
  unfold com2. destruct (com f) as [|? [|? [|z [|]]]]; done.
Qed.

(** On frames of one shape the depth builder's computation returns, and
    its stacks hold one block per frame. *)
Lemma compute_depth_ok s nz h w j d c :
  data s ≠ [] → cube2 s = Ok c →
  Forall (depth_frame_ok h w j d) (data s) →
  compute_depth s nz
  = Ok (mk_ndarray [length (data s); 1; h; w]
          (concat ((λ f, depth_value nz (default 0%Q (com f !! 2)) c
                           <$> elems (dpt f)) <$> data s)),
        mk_ndarray [length (data s); j; d]
          (concat ((λ f, elems (norm_label f c)) <$> data s))).
Proof.
  intros Hne Hc Hfs. unfold compute_depth.
  destruct (data s !! 0) as [f0|] eqn:H0;
    [|destruct (data s); done].
  assert (depth_frame_ok h w j d f0) as (Hd0 & _ & Hg0 & _).
  { eapply Forall_lookup_1; eauto. }
  simpl. rewrite Hd0, Hg0. simpl.
  rewrite Forall_forall in Hfs.
  apply (pair_loop_join s (norm_depth nz s)).
  - apply (fill_ok (data s) (norm_depth nz s) [1; h; w]
             (λ f, depth_value nz (default 0%Q (com f !! 2)) c <$> elems (dpt f))).
    intros f Hf. destruct (Hfs f Hf) as (Hd & Hwf & _ & _ & _ & Hcom).
    eexists. split; [apply norm_depth_eq; [by apply com2_default | done]|].
    split.
    + rewrite <- Hd.
      apply (broadcast_to_lead1 (mk_ndarray (shape (dpt f)) _)).
      unfold wf. simpl. by rewrite length_fmap.
    + rewrite length_fmap, Hwf, Hd. simpl. lia.
  - apply (fill_ok (data s) (label_of s) [j; d] (λ f, elems (norm_label f c))).
    intros f Hf. destruct (Hfs f Hf) as (_ & _ & _ & Hs & Hwf & _).
    exists (norm_label f c). split; [by apply label_of_eq|].
    assert (shape (norm_label f c) = [j; d]) as Hshape by done.
    split.
    + rewrite <- Hshape. by apply broadcast_to_same, norm_label_wf.
    + rewrite (norm_label_wf f c Hwf). by rewrite Hshape.
Qed.

(** Reading a pixel of an array of shape [h; w] and of a block of shape
    [1; h; w] with the same elements. *)
Lemma offset_lead1 sh idx : offset (1 :: sh) (0 :: idx) = offset sh idx.
Proof.
  cbn [offset]. rewrite decide_True by lia.
  destruct (offset sh idx); simpl; [f_equal; lia | done].
Qed.

(** With nothing cached under the name, the value a request returns
    depends on the list of sequences alone. *)
Lemma imgStack_miss_value m d1 d2 n nz :
  _imgSeqs d1 = _imgSeqs d2 →
  image_cache m d1 !! n = None → image_cache m d2 !! n = None →
  (imgStack m d1 n nz).1 = (imgStack m d2 n nz).1.
Proof.
  intros Hseqs H1 H2.
  destruct (first_named (_imgSeqs d1) n) as [s|] eqn:Hn.
  - destruct (compute m s nz) as [[I L]|e] eqn:Hc.
    + rewrite (imgStack_miss m d1 n nz s I L), (imgStack_miss m d2 n nz s I L);
        simpl; congruence.
    + rewrite (imgStack_miss_raise m d1 n nz s e),
        (imgStack_miss_raise m d2 n nz s e); simpl; congruence.
  - rewrite !imgStack_unknown; simpl; congruence.
Qed.

(** *** Colour images *)

Lemma norm_rgb_elems nz f :
  elems (norm_rgb nz f)
  = (λ x, if nz then x / 256 else (x - 128) / 128)%Q <$> elems (color f).
Proof.
  destruct nz; simpl; [done|].
  unfold div_scalar, sub_scalar, map_elems. simpl.
  by rewrite <- list_fmap_compose.
Qed.

Lemma norm_rgb_shape nz f : shape (norm_rgb nz f) = shape (color f).
Proof. by destruct nz. Qed.


(** *** The assignment into the colour stack *)

(** Three values cannot be written along an axis of another extent. *)
Lemma broadcast_3_None w l : w ≠ 3 → broadcast_elems [3] [w] l = None.
Proof.
  intros Hw. cbn [broadcast_elems].
  destruct (mapM _ _); [|done]. cbn [mbind option_bind].
  repeat case_decide; done || lia.
Qed.

Lemma broadcast_elems_cons s src d dst l :
  broadcast_elems (s :: src) (d :: dst) l
  = rows ← mapM (broadcast_elems src dst) (chunks (size_of src) s l);
    if decide (s = d) then Some (concat rows)
    else if decide (s = 1) then Some (concat (replicate d (concat rows)))
    else None.
Proof. reflexivity. Qed.

Lemma mapM_chunks_None {A B} (f : list A → option B) k n l :
  (∀ c, f c = None) → 0 < n → mapM f (chunks k n l) = None.
Proof.
  intros Hf Hn. destruct n as [|n]; [lia|]. simpl. by rewrite Hf.
Qed.

Lemma broadcast_w3_None h w l :
  0 < h → (h, w) ≠ (3, 3) → broadcast_elems [w; 3] [h; w] l = None.
Proof.
  intros Hh Hhw. rewrite broadcast_elems_cons.
  destruct (decide (w = 3)) as [->|Hw].
  - destruct (mapM _ _); [|done]. cbn [mbind option_bind].
    repeat case_decide; try done; congruence.
  - destruct w as [|w].
    + cbn [chunks mapM mret option_ret mbind option_bind].
      repeat case_decide; done || lia.
    + rewrite mapM_chunks_None; [done| |lia].
      intros c. by apply broadcast_3_None.
Qed.

(** A colour image of shape (h, w, 3) fits a block of shape (3, h, w)
    only if [h = w = 3]. *)
Lemma broadcast_hw3_None h w l :
  (h, w) ≠ (3, 3) → broadcast_elems [h; w; 3] [3; h; w] l = None.
Proof.
  intros Hhw. rewrite broadcast_elems_cons.
  destruct h as [|h].
  - cbn [chunks mapM mret option_ret mbind option_bind].
    repeat case_decide; done || lia.
  - rewrite mapM_chunks_None; [done| |lia].
    intros c. apply broadcast_w3_None; [lia | done].
Qed.

Lemma setitem_hw3_raises a n i x h w :
  shape a = [n; 3; h; w] → i < n → shape x = [h; w; 3] → (h, w) ≠ (3, 3) →
  setitem a i x = Raise ValueError.
Proof.
  intros Ha Hi Hx Hhw. unfold setitem. rewrite Ha.
  rewrite decide_True by done.
  assert (broadcast_to x [3; h; w] = None) as ->; [|done].
  unfold broadcast_to, align_shape. rewrite Hx.
  rewrite decide_True by (simpl; lia).
  cbn [length Nat.sub replicate app mbind option_bind].
  destruct (broadcastable _ _); [|done].
  by apply broadcast_hw3_None.
Qed.

(** Whatever the frames hold, the colour builder raises [ValueError]
    as soon as the first colour image is not 3 by 3. *)
Lemma compute_rgb_raises s nz f0 h w :
  data s !! 0 = Some f0 → shape (color f0) = [h; w; 3] → (h, w) ≠ (3, 3) →
  compute_rgb s nz = Raise ValueError.
Proof.
  intros H0 Hs Hhw. unfold compute_rgb. rewrite H0. simpl. rewrite Hs. simpl.
  destruct (unpack2 (shape (gtorig f0))) as [[j d]|e] eqn:Hu.
  - simpl. destruct (data s) as [|f fs] eqn:Hd; [done|].
    injection H0 as ->. cbn [length seq]. rewrite foldM_cons.
    cbn [lookup list_lookup of_option mbind result_bind].
    unfold store_frame. cbn [fst].
    rewrite (setitem_hw3_raises _ (S (length fs)) 0 _ h w);
      [done | done | lia | by rewrite norm_rgb_shape | done].
  - simpl. unfold unpack2 in Hu.
    by destruct (shape (gtorig f0)) as [|? [|? [|]]]; simplify_eq.
Qed.

(** When every colour image is 3 by 3 by 3 the assignment is accepted,
    and each image is written as it is: axis 0 of the image (rows) lands
    on the channel axis of the stack. *)
Lemma compute_rgb_3x3 s nz j d c :
  data s ≠ [] → cube2 s = Ok c →
  Forall (λ f, shape (color f) = [3; 3; 3] ∧ wf (color f) ∧
               label_frame_ok j d f) (data s) →
  compute_rgb s nz
  = Ok (mk_ndarray [length (data s); 3; 3; 3]
          (concat ((λ f, elems (norm_rgb nz f)) <$> data s)),
        mk_ndarray [length (data s); j; d]
          (concat ((λ f, elems (norm_label f c)) <$> data s))).
Proof.
  intros Hne Hc Hfs. unfold compute_rgb.
  destruct (data s !! 0) as [f0|] eqn:H0; [|destruct (data s); done].
  pose proof (Forall_lookup_1 _ _ _ _ Hfs H0) as (Hc0 & _ & Hg0 & _).
  simpl. rewrite Hc0, Hg0. simpl.
  rewrite Forall_forall in Hfs.
  apply (pair_loop_join s (λ f, Ok (norm_rgb nz f))).
  - apply (fill_ok (data s) _ [3; 3; 3] (λ f, elems (norm_rgb nz f))).
    intros f Hf. destruct (Hfs f Hf) as (Hs & Hwf & _).
    exists (norm_rgb nz f). split; [done|].
    assert (wf (norm_rgb nz f)) as Hwf'.
    { unfold wf. by rewrite norm_rgb_elems, length_fmap, norm_rgb_shape. }
    split.
    + rewrite <- Hs, <- (norm_rgb_shape nz f). by apply broadcast_to_same.
    + by rewrite Hwf', norm_rgb_shape, Hs.
  - apply (fill_ok (data s) (label_of s) [j; d] (λ f, elems (norm_label f c))).
    intros f Hf. destruct (Hfs f Hf) as (_ & _ & _ & Hs & Hwf).
    exists (norm_label f c). split; [by apply label_of_eq|].
    assert (shape (norm_label f c) = [j; d]) as Hshape by done.
    split.
    + rewrite <- Hshape. by apply broadcast_to_same, norm_label_wf.
    + rewrite (norm_label_wf f c Hwf). by rewrite Hshape.
Qed.

(** ** Facts shared by the statements on values *)

Lemma cache_put_own m self n img lbl :
  image_cache m (cache_put m self n img lbl) = <[n := img]> (image_cache m self).
Proof. by destruct m. Qed.

Lemma cache_put_other m self n img lbl :
  image_cache (other m) (cache_put m self n img lbl) = image_cache (other m) self.
Proof. by destruct m. Qed.

Lemma cache_put_labels m self n img lbl :
  _labelStacks (cache_put m self n img lbl) = <[n := lbl]> (_labelStacks self).
Proof. by destruct m. Qed.

Lemma cache_put_seqs m self n img lbl :
  _imgSeqs (cache_put m self n img lbl) = _imgSeqs self.
Proof. by destruct m. Qed.

Lemma cache_put_localCache m self n img lbl :
  localCache (cache_put m self n img lbl) = localCache self.
Proof. by destruct m. Qed.

Lemma length_concat_uniform {A} k (rows : list (list A)) :
  Forall (λ r, length r = k) rows → length (concat rows) = length rows * k.
Proof.
  induction 1 as [|r rows Hr _ IH]; simpl; [done|].
  rewrite length_app. lia.
Qed.

Lemma cube2_lookup s cube c :
  config s !! "cube"%string = Some cube → cube !! 2 = Some c → cube2 s = Ok c.
Proof. intros Hcfg Hc. unfold cube2. by rewrite Hcfg; simpl; rewrite Hc. Qed.

(** Reading the depth stack made of one block per frame. *)
Lemma depth_stack_getitem s nz h w j d c i f z y x q :
  Forall (depth_frame_ok h w j d) (data s) →
  data s !! i = Some f → com f !! 2 = Some z →
  getitem (dpt f) [y; x] = Some q →
  getitem
    (mk_ndarray [length (data s); 1; h; w]
       (concat ((λ f, depth_value nz (default 0%Q (com f !! 2)) c
                        <$> elems (dpt f)) <$> data s)))
    [i; 0; y; x]
  = Some (depth_value nz z c q).
Proof.
  intros Hfs Hf Hz Hq.
  assert (depth_frame_ok h w j d f) as (Hd & Hwf & _)
    by (eapply Forall_lookup_1; eauto).
  rewrite (getitem_blocks (data s) _ [1; h; w] i [0; y; x] f); [| |exact Hf].
  - rewrite offset_lead1. unfold getitem in Hq. rewrite Hd in Hq.
    destruct (offset [h; w] [y; x]) as [o|]; [|done]. simpl in *.
    by rewrite list_lookup_fmap, Hq, Hz.
  - apply Forall_forall. intros f' Hf'. rewrite Forall_forall in Hfs.
    destruct (Hfs f' Hf') as (Hd' & Hwf' & _).
    rewrite length_fmap, Hwf', Hd'. simpl. lia.
Qed.

(** Reading the label stack made of one block per frame. *)
Lemma label_stack_getitem s j d c i f a b g :
  Forall (label_frame_ok j d) (data s) →
  data s !! i = Some f → getitem (gt3Dcrop f) [a; b] = Some g →
  getitem
    (mk_ndarray [length (data s); j; d]
       (concat ((λ f, elems (norm_label f c)) <$> data s)))
    [i; a; b]
  = Some (clip1 (-1) 1 (g / (c / 2))%Q).
Proof.
  intros Hfs Hf Hg.
  assert (label_frame_ok j d f) as (_ & Hs & Hwf)
    by (eapply Forall_lookup_1; eauto).
  rewrite (getitem_blocks (data s) _ [j; d] i [a; b] f); [| |exact Hf].
  - unfold getitem in Hg. rewrite Hs in Hg. rewrite norm_label_elems.
    destruct (offset [j; d] [a; b]) as [o|]; [|done]. simpl in *.
    by rewrite list_lookup_fmap, Hg.
  - apply Forall_forall. intros f' Hf'. rewrite Forall_forall in Hfs.
    destruct (Hfs f' Hf') as (_ & Hs' & Hwf').
    rewrite norm_label_elems, length_fmap, Hwf', Hs'. done.
Qed.

Lemma label_blocks_bounds (fs : list Frame) c :
  Forall (λ x, (-1 <= x <= 1)%Q)
    (concat ((λ f, elems (norm_label f c)) <$> fs)).
Proof.
  apply Forall_concat, Forall_fmap, Forall_true. intros f.
  unfold compose. rewrite norm_label_elems. apply Forall_fmap, Forall_true.
  intros g. apply clip1_bounds.
Qed.

Lemma frames_ok_label m h w j d f : frames_ok m h w j d f → label_frame_ok j d f.
Proof.
  destruct m; simpl.
  - by intros (_ & _ & _ & _ & ?).
  - by intros (_ & _ & ? & ? & ? & _).
Qed.

(** On frames of one shape either computation returns, its image stack
    has the shape allocated for it, and its label stack holds one block
    of clipped coordinates per frame. *)
Lemma compute_frames_ok m s nz h w j d c :
  data s ≠ [] → cube2 s = Ok c →
  Forall (frames_ok m h w j d) (data s) →
  ∃ I,
    compute m s nz
    = Ok (I, mk_ndarray [length (data s); j; d]
               (concat ((λ f, elems (norm_label f c)) <$> data s))) ∧
    shape I = [length (data s); match m with RGB => 3 | Depth => 1 end; h; w].
Proof.
  intros Hne Hc Hfs. destruct m; simpl in *.
  - assert (h = 3 ∧ w = 3) as [-> ->].
    { destruct (data s) as [|f0 fs]; [done|].
      by destruct (Forall_inv Hfs) as (? & ? & _). }
    eexists. split.
    + apply compute_rgb_3x3; [done..|].
      eapply Forall_impl; [exact Hfs|]. by intros f (_ & _ & ?).
    + reflexivity.
  - eexists. split; [by apply compute_depth_ok | reflexivity].
Qed.

(** * The claims *)

(** C1, as the specification states it, fails: the setter leaves the
    dictionary of label stacks as it is.  Here a depth stack is built
    for ["a"] and the collection is then replaced by the empty one. *)
Lemma C1_label_stacks_survive :
  ¬ (∀ self value,
       _imgStacks (set_imgSeqs self value) = ∅ ∧
       _dptStacks (set_imgSeqs self value) = ∅ ∧
       _labelStacks (set_imgSeqs self value) = ∅).
Proof.
  intros H.
  destruct (H (imgStackDepthOnly sample "a" false).2 []) as (_ & _ & Hl).
  assert (_labelStacks
            (set_imgSeqs (imgStackDepthOnly sample "a" false).2 [])
          !! "a"%string = None) as Hnone by (rewrite Hl; apply lookup_empty).
  vm_compute in Hnone. discriminate.
Qed.

(** C1, amended. After the collection is replaced through the setter,
    the cached colour image stacks and depth image stacks are cleared,
    and a following request for any name, in either modality, returns
    what a newly constructed dataset over the new collection returns:
    it is computed from the new collection and not served from an entry
    built under the old one. *)
Theorem C1_setter_invalidates self value :
  _imgSeqs (set_imgSeqs self value) = value ∧
  _imgStacks (set_imgSeqs self value) = ∅ ∧
  _dptStacks (set_imgSeqs self value) = ∅ ∧
  ∀ n nz,
    (imgStackRGBOnly (set_imgSeqs self value) n nz).1
    = (imgStackRGBOnly (Dataset_init (Some value) (localCache self)) n nz).1 ∧
    (imgStackDepthOnly (set_imgSeqs self value) n nz).1
    = (imgStackDepthOnly (Dataset_init (Some value) (localCache self)) n nz).1.
Proof.
  repeat split.
  - by apply (imgStack_miss_value RGB).
  - by apply (imgStack_miss_value Depth).
Qed.

(** C2. The colour builder does not return a stack of shape (N, 3, H, W)
    with the channel axis moved to position 1.  The first colour image
    of the sequence ["b"] is 2 by 2 and the request raises [ValueError]; the
    sequence ["a"] has a 3 by 3 colour image, the request returns, and
    the stack at channel 0, row 1, column 2 holds the image's value at
    row 0, column 1, channel 2, not the one at row 1, column 2,
    channel 0. *)
Theorem C2_rgb_stack_not_transposed :
  imgStackRGBOnly sample "b" false = (Raise ValueError, sample) ∧
  ∃ I L,
    (imgStackRGBOnly sample "a" true).1 = Ok (Stacks I L) ∧
    shape I = [1; 3; 3; 3] ∧
    getitem I [0; 0; 1; 2]
    = (λ x, x / 256)%Q <$> getitem (color frame33) [0; 1; 2] ∧
    getitem I [0; 0; 1; 2]
    ≠ (λ x, x / 256)%Q <$> getitem (color frame33) [1; 2; 0].
Proof.
  split.
  - apply (imgStack_miss_raise RGB sample "b" false seq_b);
      [vm_compute; reflexivity | reflexivity |].
    by apply (compute_rgb_raises seq_b false frame22 2 2).
  - eexists _, _. split; [vm_compute; reflexivity|].
    split; [reflexivity|]. split; [vm_compute; reflexivity|].
    vm_compute. discriminate.
Qed.

(** C3, as the specification states it, fails: with caching enabled, a
    request under the other value of [normZeroOne] does not return what
    a computation under that value returns (here: what a newly
    constructed dataset over the same collection returns for it). *)
Lemma C3_cached_stack_ignores_mode :
  ¬ (∀ m self n nz,
       localCache self = true →
       (imgStack m (imgStack m self n nz).2 n (negb nz)).1
       = (imgStack m (Dataset_init (Some (_imgSeqs self)) true) n (negb nz)).1).
Proof.
  intros H. specialize (H Depth sample "a"%string true eq_refl).
  vm_compute in H. discriminate.
Qed.

(** C3, amended. A stack is computed on the first request per sequence
    name and modality; the normalization mode is not part of the key.
    With caching enabled, once a request has returned stacks, every
    later request for the same name and modality returns those same
    stacks whatever its [normZeroOne], and changes nothing.  With
    caching disabled and nothing cached under the name, a request
    stores nothing and every request returns the stacks computed under
    its own [normZeroOne]. *)
Theorem C3_cache_keyed_by_name m self n nz I L self' :
  imgStack m self n nz = (Ok (Stacks I L), self') →
  (localCache self = true →
   ∀ nz', imgStack m self' n nz' = (Ok (Stacks I L), self')) ∧
  (localCache self = false → image_cache m self !! n = None →
   self' = self ∧
   ∀ nz', (imgStack m self n nz').1
          = (imgStack m (Dataset_init (Some (_imgSeqs self)) false) n nz').1).
Proof.
  intros Hreq.
  destruct (first_named (_imgSeqs self) n) as [s|] eqn:Hn;
    [|by rewrite imgStack_unknown in Hreq].
  split.
  - intros Hlc nz'.
    destruct (image_cache m self !! n) as [X|] eqn:Hc.
    + rewrite (imgStack_hit m self n nz s X Hn Hc) in Hreq.
      injection Hreq as Hpair <-.
      by rewrite (imgStack_hit m self n nz' s X Hn Hc), Hpair.
    + destruct (compute m s nz) as [[I' L']|e] eqn:Hcomp.
      * rewrite (imgStack_miss m self n nz s I' L' Hn Hc Hcomp), Hlc in Hreq.
        injection Hreq as <- <- <-.
        assert (image_cache m (cache_put m self n I' L') !! n = Some I') as Hc'
          by (destruct m; apply lookup_insert_eq).
        rewrite (imgStack_hit m _ n nz' s I') by (by destruct m).
        f_equal. unfold cached_pair. rewrite Hc'. simpl.
        by destruct m; simpl; rewrite lookup_insert_eq.
      * by rewrite (imgStack_miss_raise m self n nz s e Hn Hc Hcomp) in Hreq.
  - intros Hlc Hc. split.
    + destruct (compute m s nz) as [[I' L']|e] eqn:Hcomp.
      * rewrite (imgStack_miss m self n nz s I' L' Hn Hc Hcomp), Hlc in Hreq.
        congruence.
      * by rewrite (imgStack_miss_raise m self n nz s e Hn Hc Hcomp) in Hreq.
    + intros nz'. apply imgStack_miss_value; [done..|]. by destruct m.
Qed.

Lemma C3_cache_keyed_by_name_witness :
  ∃ I L self',
    imgStack Depth sample "a" true = (Ok (Stacks I L), self') ∧
    ∀ nz', imgStack Depth self' "a" nz' = (Ok (Stacks I L), self').
Proof.
  eexists _, _, _.
  assert (imgStack Depth sample "a" true
          = (Ok (Stacks _ _), (imgStackDepthOnly sample "a" true).2)) as H
    by (vm_compute; reflexivity).
  split; [exact H|].
  exact (proj1 (C3_cache_keyed_by_name Depth sample "a" true _ _ _ H) eq_refl).
Defined.

(** C4, as the specification states it, fails: for a sequence that is
    present and has no frames, the builders do not return the empty
    list. *)
Lemma C4_empty_sequence_not_tolerated :
  ¬ (∀ self n nz s,
       first_named (_imgSeqs self) n = Some s → data s = [] →
       (imgStackRGBOnly self n nz).1 = Ok NoStacks ∧
       (imgStackDepthOnly self n nz).1 = Ok NoStacks).
Proof.
  intros H.
  destruct (H sample "e"%string false seq_empty) as [H1 _];
    [vm_compute; reflexivity | reflexivity |].
  vm_compute in H1. discriminate.
Qed.

(** C4, amended. For every sequence that is present, has no frames and
    has no stack cached under its name, both stack builders raise
    [IndexError] (frame 0 is read without a guard) and leave the dataset
    as it was; the empty list is the answer to an unknown name only. *)
Theorem C4_empty_sequence_raises self n nz s :
  first_named (_imgSeqs self) n = Some s → data s = [] →
  (_imgStacks self !! n = None →
   imgStackRGBOnly self n nz = (Raise IndexError, self)) ∧
  (_dptStacks self !! n = None →
   imgStackDepthOnly self n nz = (Raise IndexError, self)).
Proof.
  intros Hn Hd. split; intros Hc.
  - apply (imgStack_miss_raise RGB self n nz s); [done..|].
    by apply compute_empty.
  - apply (imgStack_miss_raise Depth self n nz s); [done..|].
    by apply compute_empty.
Qed.

Lemma C4_empty_sequence_raises_witness :
  first_named (_imgSeqs sample) "e" = Some seq_empty ∧ data seq_empty = [] ∧
  imgStackRGBOnly sample "e" true = (Raise IndexError, sample) ∧
  imgStackDepthOnly sample "e" true = (Raise IndexError, sample).
Proof.
  assert (first_named (_imgSeqs sample) "e" = Some seq_empty) as H
    by (vm_compute; reflexivity).
  split; [exact H|]. split; [reflexivity|].
  destruct (C4_empty_sequence_raises sample "e" true seq_empty H eq_refl)
    as [Hrgb Hdepth].
  split; [apply Hrgb | apply Hdepth]; reflexivity.
Defined.

(** C5, as the specification states it, fails in its last part: on
    float32 values the output at a depth hole is not always exactly
    1.0.  With [com[2] = 300.2], [cube[2] = 200.] and [normZeroOne]
    true, the hole of the sample depth map comes out as 1 + 2^-23. *)
Lemma C5_hole_not_exactly_one :
  ¬ (∀ nz z64 c64 pixels p x,
       SpecFloat.SFltb (SpecFloat.S754_zero false) c64 = true →
       pixels !! p = Some x → float32.is_zero x = true →
       float32.norm_depth32 nz z64 c64 pixels !! p = Some float32.one).
Proof.
  intros H.
  specialize (H true z300_2 c200 dpt_hole 0 (SpecFloat.S754_zero false)).
  assert (SpecFloat.SFltb (SpecFloat.S754_zero false) c200 = true) as Hc
    by (vm_compute; reflexivity).
  specialize (H Hc eq_refl eq_refl). vm_compute in H. discriminate.
Qed.

(** C5, amended. In [imgStackDepthOnly], for a sequence with at least
    one frame, frames of one shape and [cube[2]] not zero, the request
    returns stacks, and for every frame [i] and pixel [(y, x)] the image
    stack holds the scaling of [v], where [v] is [com[2] + cube[2]/2]
    (the frame's [com], the sequence's cube) when the depth is 0 and the
    depth itself otherwise: the substitution comes before the scaling,
    and a hole is scaled by the formula of the other pixels.  In exact
    arithmetic the value at a hole is 1 in both modes.  On float32
    values the same holds of every element of a depth map, with the
    substituted value rounded to float32; the result at a hole is then
    1 up to rounding only. *)
Theorem C5_depth_holes self n nz s h w j d cube c :
  first_named (_imgSeqs self) n = Some s →
  _dptStacks self !! n = None →
  data s ≠ [] →
  config s !! "cube"%string = Some cube → cube !! 2 = Some c →
  ¬ (c == 0)%Q →
  Forall (depth_frame_ok h w j d) (data s) →
  (∃ I L,
     (imgStackDepthOnly self n nz).1 = Ok (Stacks I L) ∧
     shape I = [length (data s); 1; h; w] ∧
     ∀ i f z y x q,
       data s !! i = Some f → com f !! 2 = Some z →
       getitem (dpt f) [y; x] = Some q →
       getitem I [i; 0; y; x]
       = Some (let v := if Qeq_bool q 0 then z + c / 2 else q in
               if nz then (v - (z - c / 2)) / c else (v - z) / (c / 2))%Q) ∧
  (∀ z, ((z + c / 2 - (z - c / 2)) / c == 1)%Q ∧
        ((z + c / 2 - z) / (c / 2) == 1)%Q) ∧
  (∀ z64 c64 pixels p x,
     pixels !! p = Some x →
     float32.norm_depth32 nz z64 c64 pixels !! p
     = Some (let v := if float32.is_zero x
                      then float32.to_f32
                             (float32.add64 z64 (float32.div64 c64 float32.two))
                      else x in
             if nz
             then float32.div32
                    (float32.sub32 v
                       (float32.to_f32
                          (float32.sub64 z64 (float32.div64 c64 float32.two))))
                    (float32.to_f32 c64)
             else float32.div32
                    (float32.sub32 v (float32.to_f32 z64))
                    (float32.to_f32 (float32.div64 c64 float32.two)))).
Proof.
  intros Hn Hc Hne Hcfg Hcube Hc0 Hfs.
  pose proof (cube2_lookup s cube c Hcfg Hcube) as Hcube2.
  pose proof (compute_depth_ok s nz h w j d c Hne Hcube2 Hfs) as Hcomp.
  split; [|split].
  - eexists _, _. split; [|split].
    + change (imgStackDepthOnly self n nz) with (imgStack Depth self n nz).
      rewrite (imgStack_miss Depth self n nz s _ _ Hn Hc Hcomp). reflexivity.
    + reflexivity.
    + intros i f z y x q Hf Hz Hq.
      rewrite (depth_stack_getitem s nz h w j d c i f z y x q Hfs Hf Hz Hq).
      unfold depth_value, scale_depth, fill_where_zero. by destruct nz.
  - intros z. split; field; done.
  - intros z64 c64 pixels p x Hx.
    unfold float32.norm_depth32, float32.div_scalar32, float32.sub_scalar32,
      float32.set_where_zero32.
    destruct nz; rewrite !list_lookup_fmap, Hx; reflexivity.
Qed.

Lemma C5_depth_holes_witness :
  first_named (_imgSeqs sample) "b" = Some seq_b ∧
  _dptStacks sample !! "b"%string = None ∧
  data seq_b ≠ [] ∧
  config seq_b !! "cube"%string = Some [200; 200; 200]%Q ∧
  [200; 200; 200]%Q !! 2 = Some 200%Q ∧
  ¬ (200 == 0)%Q ∧
  Forall (depth_frame_ok 2 2 1 3) (data seq_b) ∧
  (∃ I L,
     (imgStackDepthOnly sample "b" true).1 = Ok (Stacks I L) ∧
     shape I = [length (data seq_b); 1; 2; 2] ∧
     ∀ i f z y x q,
       data seq_b !! i = Some f → com f !! 2 = Some z →
       getitem (dpt f) [y; x] = Some q →
       getitem I [i; 0; y; x]
       = Some (let v := if Qeq_bool q 0 then z + 200 / 2 else q in
               (v - (z - 200 / 2)) / 200)%Q) ∧
  (∀ z, ((z + 200 / 2 - (z - 200 / 2)) / 200 == 1)%Q ∧
        ((z + 200 / 2 - z) / (200 / 2) == 1)%Q) ∧
  (∀ z64 c64 pixels p x,
     pixels !! p = Some x →
     float32.norm_depth32 true z64 c64 pixels !! p
     = Some (let v := if float32.is_zero x
                      then float32.to_f32
                             (float32.add64 z64 (float32.div64 c64 float32.two))
                      else x in
             float32.div32
               (float32.sub32 v
                  (float32.to_f32
                     (float32.sub64 z64 (float32.div64 c64 float32.two))))
               (float32.to_f32 c64))).
Proof.
  assert (first_named (_imgSeqs sample) "b" = Some seq_b) as H1
    by (vm_compute; reflexivity).
  assert (data seq_b ≠ []) as H3 by discriminate.
  assert (config seq_b !! "cube"%string = Some [200; 200; 200]%Q) as H4
    by (vm_compute; reflexivity).
  assert (¬ (200 == 0)%Q) as H6 by discriminate.
  assert (Forall (depth_frame_ok 2 2 1 3) (data seq_b)) as H7
    by (repeat constructor).
  split; [exact H1|]. split; [reflexivity|]. split; [exact H3|].
  split; [exact H4|]. split; [reflexivity|]. split; [exact H6|].
  split; [exact H7|].
  exact (C5_depth_holes sample "b" true seq_b 2 2 1 3 [200; 200; 200]%Q 200%Q
           H1 eq_refl H3 H4 eq_refl H6 H7).
Defined.

(** C6. In both modalities and under both normalization modes, for a
    sequence with at least one frame, frames of one shape and [cube[2]]
    not zero, the request returns stacks and the label of frame [i] at
    joint [a], coordinate [b] is [clip(g / (cube[2]/2), -1, 1)] for [g]
    the frame's [gt3Dcrop] at [(a, b)]; every coordinate of the label
    stack lies in [-1, 1]; and, [cube[2]] being positive, a coordinate
    above [cube[2]/2] gives 1 and one below [-cube[2]/2] gives -1. *)
Theorem C6_label_clipping m self n nz s h w j d cube c :
  first_named (_imgSeqs self) n = Some s →
  image_cache m self !! n = None →
  data s ≠ [] →
  config s !! "cube"%string = Some cube → cube !! 2 = Some c →
  ¬ (c == 0)%Q →
  Forall (frames_ok m h w j d) (data s) →
  ∃ I L,
    (imgStack m self n nz).1 = Ok (Stacks I L) ∧
    shape L = [length (data s); j; d] ∧
    (∀ i f a b g,
       data s !! i = Some f → getitem (gt3Dcrop f) [a; b] = Some g →
       getitem L [i; a; b] = Some (Qmin (Qmax (g / (c / 2)) (-1)) 1)) ∧
    Forall (λ x, (-1 <= x <= 1)%Q) (elems L) ∧
    ((0 < c)%Q →
     ∀ i f a b g,
       data s !! i = Some f → getitem (gt3Dcrop f) [a; b] = Some g →
       ((c / 2 < g)%Q → ∃ v, getitem L [i; a; b] = Some v ∧ (v == 1)%Q) ∧
       ((g < - (c / 2))%Q → ∃ v, getitem L [i; a; b] = Some v ∧ (v == -1)%Q)).
Proof.
  intros Hn Hc Hne Hcfg Hcube Hc0 Hfs.
  pose proof (cube2_lookup s cube c Hcfg Hcube) as Hcube2.
  destruct (compute_frames_ok m s nz h w j d c Hne Hcube2 Hfs)
    as (I & Hcomp & _).
  assert (Forall (label_frame_ok j d) (data s)) as Hlbl.
  { eapply Forall_impl; [exact Hfs|]. intros f. apply frames_ok_label. }
  eexists I, _. split; [|split; [|split; [|split]]].
  - rewrite (imgStack_miss m self n nz s _ _ Hn Hc Hcomp). reflexivity.
  - reflexivity.
  - intros i f a b g Hf Hg.
    by rewrite (label_stack_getitem s j d c i f a b g Hlbl Hf Hg).
  - apply label_blocks_bounds.
  - intros Hpos i f a b g Hf Hg.
    rewrite (label_stack_getitem s j d c i f a b g Hlbl Hf Hg).
    assert (0 < c / 2)%Q as Hhalf by (apply Qlt_shift_div_l; lra).
    split; intros Hgt; eexists; (split; [reflexivity|]).
    + apply clip1_high. apply Qlt_shift_div_l; [done | lra].
    + apply clip1_low. apply Qlt_shift_div_r; [done | lra].
Qed.

(** The depth builder on ["b"] and the colour builder on ["a"]. *)
Lemma C6_label_clipping_witness :
  (first_named (_imgSeqs sample) "b" = Some seq_b ∧
   image_cache Depth sample !! "b"%string = None ∧
   data seq_b ≠ [] ∧
   config seq_b !! "cube"%string = Some [200; 200; 200]%Q ∧
   [200; 200; 200]%Q !! 2 = Some 200%Q ∧
   ¬ (200 == 0)%Q ∧
   Forall (frames_ok Depth 2 2 1 3) (data seq_b) ∧
   ∃ I L,
     (imgStack Depth sample "b" false).1 = Ok (Stacks I L) ∧
     shape L = [length (data seq_b); 1; 3] ∧
     (∀ i f a b g,
        data seq_b !! i = Some f → getitem (gt3Dcrop f) [a; b] = Some g →
        getitem L [i; a; b] = Some (Qmin (Qmax (g / (200 / 2)) (-1)) 1)) ∧
     Forall (λ x, (-1 <= x <= 1)%Q) (elems L) ∧
     ((0 < 200)%Q →
      ∀ i f a b g,
        data seq_b !! i = Some f → getitem (gt3Dcrop f) [a; b] = Some g →
        ((200 / 2 < g)%Q → ∃ v, getitem L [i; a; b] = Some v ∧ (v == 1)%Q) ∧
        ((g < - (200 / 2))%Q →
         ∃ v, getitem L [i; a; b] = Some v ∧ (v == -1)%Q))) ∧
  (first_named (_imgSeqs sample) "a" = Some seq_a ∧
   image_cache RGB sample !! "a"%string = None ∧
   data seq_a ≠ [] ∧
   config seq_a !! "cube"%string = Some [200; 200; 200]%Q ∧
   [200; 200; 200]%Q !! 2 = Some 200%Q ∧
   ¬ (200 == 0)%Q ∧
   Forall (frames_ok RGB 3 3 1 3) (data seq_a) ∧
   ∃ I L,
     (imgStack RGB sample "a" true).1 = Ok (Stacks I L) ∧
     shape L = [length (data seq_a); 1; 3] ∧
     (∀ i f a b g,
        data seq_a !! i = Some f → getitem (gt3Dcrop f) [a; b] = Some g →
        getitem L [i; a; b] = Some (Qmin (Qmax (g / (200 / 2)) (-1)) 1)) ∧
     Forall (λ x, (-1 <= x <= 1)%Q) (elems L) ∧
     ((0 < 200)%Q →
      ∀ i f a b g,
        data seq_a !! i = Some f → getitem (gt3Dcrop f) [a; b] = Some g →
        ((200 / 2 < g)%Q → ∃ v, getitem L [i; a; b] = Some v ∧ (v == 1)%Q) ∧
        ((g < - (200 / 2))%Q →
         ∃ v, getitem L [i; a; b] = Some v ∧ (v == -1)%Q))).
Proof.
  assert (first_named (_imgSeqs sample) "b" = Some seq_b) as Hb
    by (vm_compute; reflexivity).
  assert (first_named (_imgSeqs sample) "a" = Some seq_a) as Ha
    by (vm_compute; reflexivity).
  assert (data seq_b ≠ []) as Hnb by discriminate.
  assert (data seq_a ≠ []) as Hna by discriminate.
  assert (config seq_b !! "cube"%string = Some [200; 200; 200]%Q) as Hcb
    by (vm_compute; reflexivity).
  assert (config seq_a !! "cube"%string = Some [200; 200; 200]%Q) as Hca
    by (vm_compute; reflexivity).
  assert (¬ (200 == 0)%Q) as H0 by discriminate.
  assert (Forall (frames_ok Depth 2 2 1 3) (data seq_b)) as Hfb
    by (repeat constructor).
  assert (Forall (frames_ok RGB 3 3 1 3) (data seq_a)) as Hfa
    by (repeat constructor).
  split.
  - split; [exact Hb|]. split; [reflexivity|]. split; [exact Hnb|].
    split; [exact Hcb|]. split; [reflexivity|]. split; [exact H0|].
    split; [exact Hfb|].
    exact (C6_label_clipping Depth sample "b" false seq_b 2 2 1 3
             [200; 200; 200]%Q 200%Q Hb eq_refl Hnb Hcb eq_refl H0 Hfb).
  - split; [exact Ha|]. split; [reflexivity|]. split; [exact Hna|].
    split; [exact Hca|]. split; [reflexivity|]. split; [exact H0|].
    split; [exact Hfa|].
    exact (C6_label_clipping RGB sample "a" true seq_a 3 3 1 3
             [200; 200; 200]%Q 200%Q Ha eq_refl Hna Hca eq_refl H0 Hfa).
Defined.



(** C8. For every dataset and every name that no sequence of the
    collection bears, [imgSeq] and both stack builders return the empty
    list; nothing is raised and the dataset is left as it was. *)
Theorem C8_unknown_name self n nz :
  Forall (λ s, name s ≠ n) (_imgSeqs self) →
  imgSeq self n = NoSeq ∧
  imgStackRGBOnly self n nz = (Ok NoStacks, self) ∧
  imgStackDepthOnly self n nz = (Ok NoStacks, self).
Proof.
  intros Hn. apply first_named_None in Hn. split; [|split].
  - unfold imgSeq. by rewrite Hn.
  - by apply (imgStack_unknown RGB).
  - by apply (imgStack_unknown Depth).
Qed.

Lemma C8_unknown_name_witness :
  Forall (λ s, name s ≠ "zz"%string) (_imgSeqs sample) ∧
  imgSeq sample "zz" = NoSeq ∧
  imgStackRGBOnly sample "zz" false = (Ok NoStacks, sample) ∧
  imgStackDepthOnly sample "zz" false = (Ok NoStacks, sample).
Proof.
  assert (Forall (λ s, name s ≠ "zz"%string) (_imgSeqs sample)) as H
    by (repeat constructor; discriminate).
  split; [exact H | exact (C8_unknown_name sample "zz" false H)].
Defined.

(** C9. With caching enabled, the colour and the depth image stacks of
    one name live in two dictionaries that do not touch each other,
    while both builders write their label stack under the name in one
    shared dictionary.  For a sequence with at least one frame and
    frames of one shape, a request in modality [m] that finds nothing
    cached returns the stacks it computes, stores its image stack under
    the name in its own dictionary, leaves the dictionary of the other
    modality as it is and puts its label stack in place of whatever
    label stack was stored under the name.  From then on a request for
    the name in modality [m] returns these two stacks, and a request
    in the other modality returns that modality's cached image stack
    together with this label stack, the one computed last. *)
Theorem C9_label_stack_shared m self n nz s h w j d cube c :
  localCache self = true →
  first_named (_imgSeqs self) n = Some s →
  image_cache m self !! n = None →
  data s ≠ [] →
  config s !! "cube"%string = Some cube → cube !! 2 = Some c →
  Forall (frames_ok m h w j d) (data s) →
  ∃ I L self',
    compute m s nz = Ok (I, L) ∧
    imgStack m self n nz = (Ok (Stacks I L), self') ∧
    image_cache m self' = <[n := I]> (image_cache m self) ∧
    image_cache (other m) self' = image_cache (other m) self ∧
    _labelStacks self' = <[n := L]> (_labelStacks self) ∧
    (∀ nz', imgStack m self' n nz' = (Ok (Stacks I L), self')) ∧
    (∀ X nz',
       image_cache (other m) self !! n = Some X →
       imgStack (other m) self' n nz' = (Ok (Stacks X L), self')).
Proof.
  intros Hlc Hn Hc Hne Hcfg Hcube Hfs.
  pose proof (cube2_lookup s cube c Hcfg Hcube) as Hcube2.
  destruct (compute_frames_ok m s nz h w j d c Hne Hcube2 Hfs)
    as (I & Hcomp & _).
  eexists I, _, (cache_put m self n I _).
  split; [exact Hcomp|]. split; [|split; [|split; [|split; [|split]]]].
  - by rewrite (imgStack_miss m self n nz s _ _ Hn Hc Hcomp), Hlc.
  - apply cache_put_own.
  - apply cache_put_other.
  - apply cache_put_labels.
  - intros nz'.
    rewrite (imgStack_hit m _ n nz' s I);
      [|by rewrite cache_put_seqs
       |by rewrite cache_put_own, lookup_insert_eq].
    f_equal. unfold cached_pair.
    by rewrite cache_put_own, cache_put_labels, !lookup_insert_eq.
  - intros X nz' HX.
    rewrite (imgStack_hit (other m) _ n nz' s X);
      [|by rewrite cache_put_seqs|by rewrite cache_put_other].
    f_equal. unfold cached_pair.
    by rewrite cache_put_other, HX, cache_put_labels, lookup_insert_eq.
Qed.

(** First the depth builder: the colour stack of ["a"] is cached, the
    list of sequences is then changed in place so that ["a"] names other
    frames, and a depth stack is requested; the colour stack stays and
    is then served with the new label stack.  Then the colour builder:
    the depth stack of ["a"] is cached and a colour stack is requested;
    it is stored beside the depth stack. *)
Lemma C9_label_stack_shared_witness :
  (∃ X I L self',
     let self := with_seqs (imgStackRGBOnly sample "a" true).2 [seq_a_again] in
     _imgStacks self !! "a"%string = Some X ∧
     localCache self = true ∧
     first_named (_imgSeqs self) "a" = Some seq_a_again ∧
     image_cache Depth self !! "a"%string = None ∧
     data seq_a_again ≠ [] ∧
     config seq_a_again !! "cube"%string = Some [200; 200; 200]%Q ∧
     [200; 200; 200]%Q !! 2 = Some 200%Q ∧
     Forall (frames_ok Depth 2 2 1 3) (data seq_a_again) ∧
     compute Depth seq_a_again false = Ok (I, L) ∧
     imgStack Depth self "a" false = (Ok (Stacks I L), self') ∧
     _dptStacks self' !! "a"%string = Some I ∧
     _imgStacks self' !! "a"%string = Some X ∧
     _labelStacks self' !! "a"%string = Some L ∧
     (∀ nz', imgStack Depth self' "a" nz' = (Ok (Stacks I L), self')) ∧
     (∀ nz', imgStack RGB self' "a" nz' = (Ok (Stacks X L), self'))) ∧
  (∃ X I L self',
     let self := (imgStackDepthOnly sample "a" false).2 in
     _dptStacks self !! "a"%string = Some X ∧
     localCache self = true ∧
     first_named (_imgSeqs self) "a" = Some seq_a ∧
     image_cache RGB self !! "a"%string = None ∧
     data seq_a ≠ [] ∧
     config seq_a !! "cube"%string = Some [200; 200; 200]%Q ∧
     [200; 200; 200]%Q !! 2 = Some 200%Q ∧
     Forall (frames_ok RGB 3 3 1 3) (data seq_a) ∧
     compute RGB seq_a true = Ok (I, L) ∧
     imgStack RGB self "a" true = (Ok (Stacks I L), self') ∧
     _imgStacks self' !! "a"%string = Some I ∧
     _dptStacks self' !! "a"%string = Some X ∧
     _labelStacks self' !! "a"%string = Some L ∧
     (∀ nz', imgStack RGB self' "a" nz' = (Ok (Stacks I L), self')) ∧
     (∀ nz', imgStack Depth self' "a" nz' = (Ok (Stacks X L), self'))).
Proof.
  split.
  - set (self := with_seqs (imgStackRGBOnly sample "a" true).2 [seq_a_again]).
    assert (∃ X, _imgStacks self !! "a"%string = Some X) as [X HX]
      by (eexists; vm_compute; reflexivity).
    assert (first_named (_imgSeqs self) "a" = Some seq_a_again) as Hn
      by (vm_compute; reflexivity).
    assert (data seq_a_again ≠ []) as Hne by discriminate.
    assert (config seq_a_again !! "cube"%string = Some [200; 200; 200]%Q) as Hcfg
      by (vm_compute; reflexivity).
    assert (Forall (frames_ok Depth 2 2 1 3) (data seq_a_again)) as Hfs
      by (repeat constructor).
    destruct (C9_label_stack_shared Depth self "a" false seq_a_again 2 2 1 3
                [200; 200; 200]%Q 200%Q eq_refl Hn eq_refl Hne Hcfg eq_refl Hfs)
      as (I & L & self' & Hcomp & Hreq & Hown & Hother & Hlab & Hm & Ho).
    exists X, I, L, self'. simpl in Hown, Hother.
    repeat (split; [first [exact HX | exact Hn | exact Hne | exact Hcfg
                          | exact Hfs | exact Hcomp | exact Hreq | exact Hm
                          | reflexivity]|]).
    split; [by rewrite Hown, lookup_insert_eq|].
    split; [by rewrite Hother|].
    split; [by rewrite Hlab, lookup_insert_eq|].
    split; [exact Hm|]. intros nz'. by apply Ho.
  - set (self := (imgStackDepthOnly sample "a" false).2).
    assert (∃ X, _dptStacks self !! "a"%string = Some X) as [X HX]
      by (eexists; vm_compute; reflexivity).
    assert (first_named (_imgSeqs self) "a" = Some seq_a) as Hn
      by (vm_compute; reflexivity).
    assert (data seq_a ≠ []) as Hne by discriminate.
    assert (config seq_a !! "cube"%string = Some [200; 200; 200]%Q) as Hcfg
      by (vm_compute; reflexivity).
    assert (Forall (frames_ok RGB 3 3 1 3) (data seq_a)) as Hfs
      by (repeat constructor).
    destruct (C9_label_stack_shared RGB self "a" true seq_a 3 3 1 3
                [200; 200; 200]%Q 200%Q eq_refl Hn eq_refl Hne Hcfg eq_refl Hfs)
      as (I & L & self' & Hcomp & Hreq & Hown & Hother & Hlab & Hm & Ho).
    exists X, I, L, self'. simpl in Hown, Hother.
    repeat (split; [first [exact HX | exact Hn | exact Hne | exact Hcfg
                          | exact Hfs | exact Hcomp | exact Hreq | exact Hm
                          | reflexivity]|]).
    split; [by rewrite Hown, lookup_insert_eq|].
    split; [by rewrite Hother|].
    split; [by rewrite Hlab, lookup_insert_eq|].
    split; [exact Hm|]. intros nz'. by apply Ho.
Defined.

(** C10. When several sequences of the collection bear the same name,
    [imgSeq] and both stack builders resolve the name to the first of
    them in collection order: a builder that finds nothing cached
    computes its stacks from that sequence, and whatever follows it in
    the collection changes neither the value returned nor the caches. *)
Theorem C10_first_match self pre s post n :
  _imgSeqs self = pre ++ s :: post →
  Forall (λ x, name x ≠ n) pre → name s = n →
  imgSeq self n = FoundSeq s ∧
  ∀ m nz,
    (image_cache m self !! n = None →
     imgStack m self n nz
     = match compute m s nz with
       | Ok (img, lbl) =>
           (Ok (Stacks img lbl),
            if localCache self then cache_put m self n img lbl else self)
       | Raise e => (Raise e, self)
       end) ∧
    ∀ post',
      imgStack m (with_seqs self (pre ++ s :: post')) n nz
      = ((imgStack m self n nz).1,
         with_seqs (imgStack m self n nz).2 (pre ++ s :: post')).
Proof.
  intros Hseqs Hpre Hs.
  assert (first_named (_imgSeqs self) n = Some s) as Hn
    by (rewrite Hseqs; by apply first_named_middle).
  split; [unfold imgSeq; by rewrite Hn|].
  intros m nz. split.
  - intros Hc. destruct (compute m s nz) as [[I L]|e] eqn:Hcomp.
    + by apply imgStack_miss with s.
    + by apply imgStack_miss_raise with s.
  - intros post'.
    assert (first_named (_imgSeqs (with_seqs self (pre ++ s :: post'))) n
            = Some s) as Hn' by (by apply first_named_middle).
    assert (image_cache m (with_seqs self (pre ++ s :: post'))
            = image_cache m self) as Hcache by (by destruct m).
    destruct (image_cache m self !! n) as [X|] eqn:Hc.
    + rewrite (imgStack_hit m _ n nz s X Hn') by (by rewrite Hcache).
      rewrite (imgStack_hit m self n nz s X Hn Hc). by rewrite Hcache.
    + destruct (compute m s nz) as [[I L]|e] eqn:Hcomp.
      * rewrite (imgStack_miss m _ n nz s I L Hn') by (by rewrite ?Hcache).
        rewrite (imgStack_miss m self n nz s I L Hn Hc Hcomp). simpl.
        by destruct (localCache self), m.
      * rewrite (imgStack_miss_raise m _ n nz s e Hn') by (by rewrite ?Hcache).
        by rewrite (imgStack_miss_raise m self n nz s e Hn Hc Hcomp).
Qed.

Lemma C10_first_match_witness :
  _imgSeqs sample = [seq_b] ++ seq_a :: [seq_empty; seq_a_again] ∧
  Forall (λ x, name x ≠ "a"%string) [seq_b] ∧ name seq_a = "a"%string ∧
  imgSeq sample "a" = FoundSeq seq_a ∧
  ∀ m nz,
    (image_cache m sample !! "a"%string = None →
     imgStack m sample "a" nz
     = match compute m seq_a nz with
       | Ok (img, lbl) =>
           (Ok (Stacks img lbl),
            if localCache sample then cache_put m sample "a" img lbl else sample)
       | Raise e => (Raise e, sample)
       end) ∧
    ∀ post',
      imgStack m (with_seqs sample ([seq_b] ++ seq_a :: post')) "a" nz
      = ((imgStack m sample "a" nz).1,
         with_seqs (imgStack m sample "a" nz).2 ([seq_b] ++ seq_a :: post')).
Proof.
  assert (Forall (λ x, name x ≠ "a"%string) [seq_b]) as H
    by (repeat constructor; discriminate).
  split; [reflexivity|]. split; [exact H|]. split; [reflexivity|].
  exact (C10_first_match sample [seq_b] seq_a [seq_empty; seq_a_again] "a"
           eq_refl H eq_refl).
Defined.

(** * Further properties of the class *)

(** ** One equation for a request *)

Lemma imgStack_eq m self n nz :
  imgStack m self n nz
  = match first_named (_imgSeqs self) n with
    | None => (Ok NoStacks, self)
    | Some s =>
        match image_cache m self !! n with
        | Some _ => (cached_pair (image_cache m self) (_labelStacks self) n, self)
        | None =>
            match compute m s nz with
            | Raise e => (Raise e, self)
            | Ok (img, lbl) =>
                (Ok (Stacks img lbl),
                 if localCache self then cache_put m self n img lbl else self)
            end
        end
    end.
Proof.
  destruct (first_named (_imgSeqs self) n) as [s|] eqn:Hn;
    [|by apply imgStack_unknown].
  destruct (image_cache m self !! n) as [X|] eqn:Hc;
    [by apply imgStack_hit with s X|].
  destruct (compute m s nz) as [[img lbl]|e] eqn:Hcomp.
  - by apply imgStack_miss with s.
  - by apply imgStack_miss_raise with s.
Qed.

(** ** What a request changes and what it leaves alone *)

(** A request for the same name, modality and mode made right after a
    first one returns what the first returned (stacks, the empty list
    or the same exception) and leaves the object as the first left it. *)
Theorem request_idempotent m self n nz :
  imgStack m (imgStack m self n nz).2 n nz = imgStack m self n nz.
Proof.
  rewrite (imgStack_eq m self n nz).
  destruct (first_named (_imgSeqs self) n) as [s|] eqn:Hn; simpl;
    [|by rewrite imgStack_eq, Hn].
  destruct (image_cache m self !! n) as [X|] eqn:Hc; simpl;
    [by rewrite imgStack_eq, Hn, Hc|].
  destruct (compute m s nz) as [[img lbl]|e] eqn:Hcomp; simpl;
    [|by rewrite imgStack_eq, Hn, Hc, Hcomp].
  destruct (localCache self) eqn:Hlc;
    [|by rewrite imgStack_eq, Hn, Hc, Hcomp, Hlc].
  rewrite imgStack_eq, cache_put_seqs, Hn, cache_put_own, lookup_insert_eq.
  by rewrite cache_put_labels, cached_pair_put.
Qed.

(** A request never changes the caching flag, the list of sequences or
    the image dictionary of the other modality; it keeps every entry
    already cached for its own modality, and touches no entry, image or
    label, stored under another name. *)
Theorem request_frame m self n nz :
  let self' := (imgStack m self n nz).2 in
  localCache self' = localCache self ∧
  _imgSeqs self' = _imgSeqs self ∧
  image_cache (other m) self' = image_cache (other m) self ∧
  (∀ n' X, image_cache m self !! n' = Some X →
           image_cache m self' !! n' = Some X) ∧
  (∀ n', n' ≠ n →
         image_cache m self' !! n' = image_cache m self !! n' ∧
         _labelStacks self' !! n' = _labelStacks self !! n').
Proof.
  simpl. rewrite imgStack_eq.
  destruct (first_named (_imgSeqs self) n) as [s|]; simpl; [|done].
  destruct (image_cache m self !! n) as [X|] eqn:Hc; simpl; [done|].
  destruct (compute m s nz) as [[img lbl]|e]; simpl; [|done].
  destruct (localCache self) eqn:Hlc; [|done].
  rewrite cache_put_localCache, cache_put_seqs, cache_put_other,
    cache_put_own, cache_put_labels.
  repeat split; try done.
  - intros n' X' Hn'. rewrite lookup_insert_ne; [done|]. congruence.
  - by rewrite lookup_insert_ne.
  - by rewrite lookup_insert_ne.
Qed.

(** The object is modified by one kind of request only: caching is
    enabled, nothing is cached under the name for the modality, and the
    computation returns stacks.  With caching disabled, with a cached
    name, or when the request raises or returns the empty list, the
    object stays as it was. *)
Theorem request_leaves_object m self n nz :
  localCache self = false ∨
  is_Some (image_cache m self !! n) ∨
  (∀ img lbl, (imgStack m self n nz).1 ≠ Ok (Stacks img lbl)) →
  (imgStack m self n nz).2 = self.
Proof.
  rewrite imgStack_eq.
  destruct (first_named (_imgSeqs self) n) as [s|]; simpl; [|done].
  destruct (image_cache m self !! n) as [X|] eqn:Hc; simpl; [done|].
  destruct (compute m s nz) as [[img lbl]|e]; simpl; [|done].
  intros [->|[[X HX]|Hne]]; [done | done |].
  by destruct (Hne img lbl).
Qed.

Lemma request_leaves_object_witness :
  (localCache sample = false ∨
   is_Some (image_cache RGB sample !! "b"%string) ∨
   (∀ img lbl, (imgStack RGB sample "b" true).1 ≠ Ok (Stacks img lbl))) ∧
  (imgStack RGB sample "b" true).2 = sample.
Proof.
  assert (∀ img lbl, (imgStack RGB sample "b" true).1 ≠ Ok (Stacks img lbl))
    as H by (intros img lbl; vm_compute; discriminate).
  split; [right; right; exact H|].
  exact (request_leaves_object RGB sample "b" true (or_intror (or_intror H))).
Defined.

(** With caching disabled at construction nothing is ever retained:
    however many requests and replacements follow, the three
    dictionaries stay empty. *)
Theorem nocache_never_retains self :
  reachable self → localCache self = false →
  _imgStacks self = ∅ ∧ _dptStacks self = ∅ ∧ _labelStacks self = ∅.
Proof.
  induction 1 as [imgSeqs lc | m self n nz Hr IH | self value Hr IH];
    intros Hlc.
  - done.
  - destruct (request_frame m self n nz) as (Hlc' & _).
    simpl in Hlc'. rewrite Hlc' in Hlc.
    rewrite request_leaves_object by (by left). by apply IH.
  - destruct (IH Hlc) as (_ & _ & Hl). done.
Qed.

Lemma nocache_never_retains_witness :
  let self :=
    (imgStack Depth
       (set_imgSeqs (imgStack Depth (Dataset_init (Some [seq_a]) false) "a" true).2
          [seq_b]) "b" false).2 in
  reachable self ∧ localCache self = false ∧
  _imgStacks self = ∅ ∧ _dptStacks self = ∅ ∧ _labelStacks self = ∅.
Proof.
  intros self.
  assert (reachable self) as H
    by (apply reach_request, reach_set, reach_request, reach_init).
  split; [exact H|]. split; [reflexivity|].
  exact (nocache_never_retains self H eq_refl).
Defined.

(** ** The lookup *)

Lemma first_named_Some seqs n s :
  first_named seqs n = Some s → name s = n ∧ s ∈ seqs.
Proof.
  induction seqs as [|x seqs IH]; simpl; [done|].
  case_decide.
  - intros [= <-]. split; [done | by left].
  - intros Hs. destruct (IH Hs). split; [done | by right].
Qed.

(** [imgSeq] returns the empty list exactly when no sequence bears the
    name; a sequence it returns bears the name and belongs to the
    collection; and a builder returns the empty list exactly when
    [imgSeq] does, so that the empty list always means an unknown name. *)
Theorem empty_result_means_unknown self n :
  (imgSeq self n = NoSeq ↔ Forall (λ s, name s ≠ n) (_imgSeqs self)) ∧
  (∀ s, imgSeq self n = FoundSeq s → name s = n ∧ s ∈ get_imgSeqs self) ∧
  (∀ m nz, (imgStack m self n nz).1 = Ok NoStacks ↔ imgSeq self n = NoSeq).
Proof.
  unfold imgSeq, get_imgSeqs. split; [|split].
  - rewrite <- first_named_None.
    destruct (first_named (_imgSeqs self) n); split; done.
  - intros s. destruct (first_named (_imgSeqs self) n) eqn:Hn; [|done].
    intros [= <-]. by apply first_named_Some.
  - intros m nz. rewrite imgStack_eq.
    destruct (first_named (_imgSeqs self) n) as [s|]; [|done].
    split; [|done].
    destruct (image_cache m self !! n) as [X|] eqn:Hc; simpl.
    + unfold cached_pair. rewrite Hc. simpl.
      by destruct (_labelStacks self !! n).
    + by destruct (compute m s nz) as [[img lbl]|e].
Qed.

(** ** Labels do not depend on the modality or the mode *)

(** Whenever two computations over one sequence return, in whichever
    modalities and under whichever modes, their label stacks are the
    same: the shared label dictionary never mixes different labels for
    one sequence. *)
Theorem label_stack_independent m m' s nz nz' I L I' L' :
  compute m s nz = Ok (I, L) → compute m' s nz' = Ok (I', L') → L = L'.
Proof.
  intros H1 H2.
  apply compute_label_loop in H1 as (f0 & j & d & H0 & Hs & Hloop).
  apply compute_label_loop in H2 as (f0' & j' & d' & H0' & Hs' & Hloop').
  rewrite H0 in H0'. injection H0' as <-.
  rewrite Hs in Hs'. injection Hs' as <- <-.
  congruence.
Qed.

Lemma label_stack_independent_witness :
  ∃ I L I' L',
    compute RGB seq_a true = Ok (I, L) ∧
    compute Depth seq_a false = Ok (I', L') ∧ L = L'.
Proof.
  eexists _, _, _, _.
  assert (compute RGB seq_a true = Ok (_, _)) as H1 by (vm_compute; reflexivity).
  assert (compute Depth seq_a false = Ok (_, _)) as H2 by (vm_compute; reflexivity).
  split; [exact H1|]. split; [exact H2|].
  exact (label_stack_independent RGB Depth seq_a true false _ _ _ _ H1 H2).
Defined.

(** ** Cache coherence *)

Lemma image_cache_init m imgSeqs lc : image_cache m (Dataset_init imgSeqs lc) = ∅.
Proof. by destruct m. Qed.

Lemma image_cache_set m self value : image_cache m (set_imgSeqs self value) = ∅.
Proof. by destruct m. Qed.

Lemma request_coherent m self n nz :
  coherent self → coherent (imgStack m self n nz).2.
Proof.
  intros Hcoh. rewrite imgStack_eq.
  destruct (first_named (_imgSeqs self) n) as [s|] eqn:Hn; simpl; [|done].
  destruct (image_cache m self !! n) as [X|] eqn:Hc; simpl; [done|].
  destruct (compute m s nz) as [[img lbl]|e] eqn:Hcomp; simpl; [|done].
  destruct (localCache self); [|done].
  intros m1 n1 X1 HX1. rewrite cache_put_seqs, cache_put_labels.
  destruct (decide (n1 = n)) as [->|Hne].
  - rewrite lookup_insert_eq.
    assert (m1 = m ∨ m1 = other m) as [->| ->] by (destruct m1, m; auto).
    + rewrite cache_put_own, lookup_insert_eq in HX1. injection HX1 as <-.
      by exists s, nz, lbl.
    + rewrite cache_put_other in HX1.
      destruct (Hcoh _ _ _ HX1) as (s' & nz' & L' & Hs' & Hcomp' & _).
      rewrite Hn in Hs'. injection Hs' as <-.
      exists s, nz', lbl. split; [done|]. split; [|done].
      by rewrite (label_stack_independent m (other m) s nz nz' _ _ _ _
                    Hcomp Hcomp').
  - rewrite lookup_insert_ne by done.
    apply Hcoh.
    assert (m1 = m ∨ m1 = other m) as [->| ->] by (destruct m1, m; auto).
    + by rewrite cache_put_own, lookup_insert_ne in HX1.
    + by rewrite cache_put_other in HX1.
Qed.

Lemma reachable_coherent self : reachable self → coherent self.
Proof.
  induction 1 as [imgSeqs lc | m self n nz Hr IH | self value Hr IH].
  - intros m n X. by rewrite image_cache_init, lookup_empty.
  - by apply request_coherent.
  - intros m n X. by rewrite image_cache_set, lookup_empty.
Qed.

(** In every object reached through the methods of the class, a cached
    image stack is served together with a label stack, without raising,
    and the pair is one that a computation over the sequence the name
    now resolves to returns under some mode: no request is answered
    from a stack built for another collection. *)
Theorem cache_hit_is_computation m self n X :
  reachable self → image_cache m self !! n = Some X →
  ∃ s nz0 L,
    first_named (_imgSeqs self) n = Some s ∧
    compute m s nz0 = Ok (X, L) ∧
    ∀ nz, imgStack m self n nz = (Ok (Stacks X L), self).
Proof.
  intros Hr HX.
  destruct (reachable_coherent self Hr m n X HX) as (s & nz0 & L & Hn & Hc & HL).
  exists s, nz0, L. split; [done|]. split; [done|].
  intros nz. rewrite (imgStack_hit m self n nz s X Hn HX).
  unfold cached_pair. by rewrite HX, HL.
Qed.

Lemma cache_hit_is_computation_witness :
  ∃ X,
    let self :=
      (imgStack Depth (set_imgSeqs (imgStack Depth sample "b" true).2 [seq_a])
         "a" false).2 in
    reachable self ∧ image_cache Depth self !! "a"%string = Some X ∧
    ∃ s nz0 L,
      first_named (_imgSeqs self) "a" = Some s ∧
      compute Depth s nz0 = Ok (X, L) ∧
      ∀ nz, imgStack Depth self "a" nz = (Ok (Stacks X L), self).
Proof.
  eexists. intros self.
  assert (reachable self) as H
    by (apply reach_request, reach_set, reach_request, reach_init).
  assert (image_cache Depth self !! "a"%string = Some _) as HX
    by (vm_compute; reflexivity).
  split; [exact H|]. split; [exact HX|].
  exact (cache_hit_is_computation Depth self "a" _ H HX).
Defined.

(** ** The colour builder and the extent of the images *)

(** For every sequence whose first colour image has shape (h, w, 3)
    with (h, w) other than (3, 3), a colour request that finds nothing
    cached raises [ValueError] at the first assignment into the stack,
    whatever the other frames hold, and leaves the object as it was. *)
Theorem rgb_request_raises self n nz s f0 h w :
  first_named (_imgSeqs self) n = Some s →
  _imgStacks self !! n = None →
  data s !! 0 = Some f0 → shape (color f0) = [h; w; 3] → (h, w) ≠ (3, 3) →
  imgStackRGBOnly self n nz = (Raise ValueError, self).
Proof.
  intros Hn Hc H0 Hs Hhw.
  apply (imgStack_miss_raise RGB self n nz s); [done..|].
  by apply compute_rgb_raises with f0 h w.
Qed.

Lemma rgb_request_raises_witness :
  first_named (_imgSeqs sample) "b" = Some seq_b ∧
  _imgStacks sample !! "b"%string = None ∧
  data seq_b !! 0 = Some frame22 ∧ shape (color frame22) = [2; 2; 3] ∧
  (2, 2) ≠ (3, 3) ∧
  imgStackRGBOnly sample "b" true = (Raise ValueError, sample).
Proof.
  assert (first_named (_imgSeqs sample) "b" = Some seq_b) as H1
    by (vm_compute; reflexivity).
  assert ((2, 2) ≠ (3, 3)) as H5 by discriminate.
  repeat (split; [first [exact H1 | exact H5 | reflexivity]|]).
  exact (rgb_request_raises sample "b" true seq_b frame22 2 2
           H1 eq_refl eq_refl eq_refl H5).
Defined.

(** When every colour image is 3 by 3 by 3, a colour request that finds
    nothing cached returns, and the stack holds each image in its own
    axis order: entry [(i, a, b, c)] of the stack is the normalized
    entry [(a, b, c)] of image [i]. *)
Theorem rgb_request_3x3 self n nz s j d c :
  first_named (_imgSeqs self) n = Some s →
  _imgStacks self !! n = None →
  data s ≠ [] → cube2 s = Ok c →
  Forall (λ f, shape (color f) = [3; 3; 3] ∧ wf (color f) ∧
               label_frame_ok j d f) (data s) →
  ∃ I L,
    (imgStackRGBOnly self n nz).1 = Ok (Stacks I L) ∧
    shape I = [length (data s); 3; 3; 3] ∧
    shape L = [length (data s); j; d] ∧
    ∀ i f a b ch q,
      data s !! i = Some f → getitem (color f) [a; b; ch] = Some q →
      getitem I [i; a; b; ch]
      = Some (if nz then q / 256 else (q - 128) / 128)%Q.
Proof.
  intros Hn Hc Hne Hcube Hfs.
  pose proof (compute_rgb_3x3 s nz j d c Hne Hcube Hfs) as Hcomp.
  eexists _, _. split; [|split; [|split]].
  - change (imgStackRGBOnly self n nz) with (imgStack RGB self n nz).
    rewrite (imgStack_miss RGB self n nz s _ _ Hn Hc Hcomp). reflexivity.
  - reflexivity.
  - reflexivity.
  - intros i f a b ch q Hf Hq.
    pose proof (Forall_lookup_1 _ _ _ _ Hfs Hf) as (Hs & Hwf & _).
    rewrite (getitem_blocks (data s) _ [3; 3; 3] i [a; b; ch] f); [| |exact Hf].
    + unfold getitem in Hq. rewrite Hs in Hq. rewrite norm_rgb_elems.
      destruct (offset [3; 3; 3] [a; b; ch]) as [o|]; [|done]. simpl in *.
      by rewrite list_lookup_fmap, Hq.
    + apply Forall_forall. intros f' Hf'. rewrite Forall_forall in Hfs.
      destruct (Hfs f' Hf') as (Hs' & Hwf' & _).
      by rewrite norm_rgb_elems, length_fmap, Hwf', Hs'.
Qed.

Lemma rgb_request_3x3_witness :
  first_named (_imgSeqs sample) "a" = Some seq_a ∧
  _imgStacks sample !! "a"%string = None ∧
  data seq_a ≠ [] ∧ cube2 seq_a = Ok 200%Q ∧
  Forall (λ f, shape (color f) = [3; 3; 3] ∧ wf (color f) ∧
               label_frame_ok 1 3 f) (data seq_a) ∧
  ∃ I L,
    (imgStackRGBOnly sample "a" false).1 = Ok (Stacks I L) ∧
    shape I = [length (data seq_a); 3; 3; 3] ∧
    shape L = [length (data seq_a); 1; 3] ∧
    ∀ i f a b ch q,
      data seq_a !! i = Some f → getitem (color f) [a; b; ch] = Some q →
      getitem I [i; a; b; ch] = Some ((q - 128) / 128)%Q.
Proof.
  assert (first_named (_imgSeqs sample) "a" = Some seq_a) as H1
    by (vm_compute; reflexivity).
  assert (data seq_a ≠ []) as H3 by discriminate.
  assert (cube2 seq_a = Ok 200%Q) as H4 by (vm_compute; reflexivity).
  assert (Forall (λ f, shape (color f) = [3; 3; 3] ∧ wf (color f) ∧
                       label_frame_ok 1 3 f) (data seq_a)) as H5
    by (repeat constructor).
  split; [exact H1|]. split; [reflexivity|]. split; [exact H3|].
  split; [exact H4|]. split; [exact H5|].
  exact (rgb_request_3x3 sample "a" false seq_a 1 3 200%Q H1 eq_refl H3 H4 H5).
Defined.

(** ** Missing metadata *)

Lemma compute_depth_first s nz f0 h w j d e :
  data s !! 0 = Some f0 →
  shape (dpt f0) = [h; w] → shape (gtorig f0) = [j; d] →
  norm_depth nz s f0 = Raise e →
  compute_depth s nz = Raise e.
Proof.
  intros H0 Hd Hg He. unfold compute_depth. rewrite H0. simpl.
  rewrite Hd, Hg. simpl.
  destruct (data s) as [|f fs] eqn:Hdata; [done|].
  injection H0 as ->. cbn [length seq]. rewrite foldM_cons.
  cbn [lookup list_lookup of_option mbind result_bind]. by rewrite He.
Qed.

(** When the [com] of the first frame has fewer than three components,
    a depth request that finds nothing cached raises [IndexError] in
    either mode and leaves the object as it was. *)
Theorem depth_request_short_com self n nz s f0 h w j d :
  first_named (_imgSeqs self) n = Some s →
  _dptStacks self !! n = None →
  data s !! 0 = Some f0 →
  shape (dpt f0) = [h; w] → shape (gtorig f0) = [j; d] →
  length (com f0) < 3 →
  imgStackDepthOnly self n nz = (Raise IndexError, self).
Proof.
  intros Hn Hc H0 Hd Hg Hcom.
  apply (imgStack_miss_raise Depth self n nz s); [done..|].
  apply (compute_depth_first s nz f0 h w j d); [done..|].
  assert (com2 f0 = Raise IndexError) as Hz.
  { unfold com2. rewrite lookup_ge_None_2 by lia. done. }
  unfold norm_depth. rewrite Hz. by destruct nz.
Qed.

Lemma depth_request_short_com_witness :
  first_named (_imgSeqs sample_bad) "c" = Some seq_shortcom ∧
  _dptStacks sample_bad !! "c"%string = None ∧
  data seq_shortcom !! 0 = Some frame_shortcom ∧
  shape (dpt frame_shortcom) = [2; 2] ∧ shape (gtorig frame_shortcom) = [1; 3] ∧
  length (com frame_shortcom) < 3 ∧
  imgStackDepthOnly sample_bad "c" true = (Raise IndexError, sample_bad).
Proof.
  assert (first_named (_imgSeqs sample_bad) "c" = Some seq_shortcom) as H1
    by (vm_compute; reflexivity).
  assert (length (com frame_shortcom) < 3) as H6 by (simpl; lia).
  repeat (split; [first [exact H1 | exact H6 | reflexivity]|]).
  exact (depth_request_short_com sample_bad "c" true seq_shortcom
           frame_shortcom 2 2 1 3 H1 eq_refl eq_refl eq_refl eq_refl H6).
Defined.

(** When the configuration of the sequence has no ['cube'] entry (and
    the first frame has a three-component [com]), a depth request that
    finds nothing cached raises [KeyError] in either mode and leaves
    the object as it was. *)
Theorem depth_request_no_cube self n nz s f0 h w j d :
  first_named (_imgSeqs self) n = Some s →
  _dptStacks self !! n = None →
  data s !! 0 = Some f0 →
  shape (dpt f0) = [h; w] → shape (gtorig f0) = [j; d] →
  length (com f0) = 3 →
  config s !! "cube"%string = None →
  imgStackDepthOnly self n nz = (Raise KeyError, self).
Proof.
  intros Hn Hc H0 Hd Hg Hcom Hcfg.
  apply (imgStack_miss_raise Depth self n nz s); [done..|].
  apply (compute_depth_first s nz f0 h w j d); [done..|].
  assert (cube2 s = Raise KeyError) as Hcube
    by (unfold cube2; by rewrite Hcfg).
  unfold norm_depth. rewrite (com2_default f0 Hcom), Hcube. by destruct nz.
Qed.

Lemma depth_request_no_cube_witness :
  first_named (_imgSeqs sample_bad) "n" = Some seq_nocube ∧
  _dptStacks sample_bad !! "n"%string = None ∧
  data seq_nocube !! 0 = Some frame22 ∧
  shape (dpt frame22) = [2; 2] ∧ shape (gtorig frame22) = [1; 3] ∧
  length (com frame22) = 3 ∧
  config seq_nocube !! "cube"%string = None ∧
  imgStackDepthOnly sample_bad "n" false = (Raise KeyError, sample_bad).
Proof.
  assert (first_named (_imgSeqs sample_bad) "n" = Some seq_nocube) as H1
    by (vm_compute; reflexivity).
  repeat (split; [first [exact H1 | reflexivity]|]).
  exact (depth_request_no_cube sample_bad "n" false seq_nocube frame22 2 2 1 3
           H1 eq_refl eq_refl eq_refl eq_refl eq_refl eq_refl).
Defined.

(** ** Shape and size of the stacks returned *)

Lemma length_chunks {A} k n (l : list A) : length (chunks k n l) = n.
Proof. revert l. induction n as [|n IH]; intros l; simpl; [done|]. by rewrite IH. Qed.

Lemma broadcast_elems_length src dst l r :
  length l = size_of src → broadcast_elems src dst l = Some r →
  length r = size_of dst.
Proof.
  revert dst l r. induction src as [|s src IH]; intros [|d dst] l r; try done.
  - simpl. by intros Hl [= <-].
  - rewrite size_of_cons, broadcast_elems_cons. intros Hl Hb.
    destruct (mapM _ _) as [rows|] eqn:Hrows; [|done].
    cbn [mbind option_bind] in Hb.
    assert (Forall (λ r, length r = size_of dst) rows) as Hlen.
    { pose proof Hrows as Hrows2. apply mapM_Some_1 in Hrows2.
      pose proof (chunks_lengths (size_of src) s l Hl) as Hch.
      revert Hrows2 Hch. generalize (chunks (size_of src) s l).
      intros cs Hrows2 Hch.
      revert Hrows2. generalize rows. clear Hrows.
      induction Hch as [|c cs Hc _ IHc]; intros ys Hys;
        inversion Hys; subst; constructor; [by eapply IH | by apply IHc]. }
    assert (length rows = s) as Hn.
    { apply length_mapM in Hrows. by rewrite length_chunks in Hrows. }
    pose proof (length_concat_uniform _ _ Hlen) as Hc. rewrite Hn in Hc.
    rewrite size_of_cons. repeat case_decide; simplify_eq; [done|].
    rewrite (length_concat_uniform (size_of dst)).
    + rewrite length_replicate. done.
    + apply Forall_replicate. rewrite Hc. lia.
Qed.

Lemma size_of_ones k sh : size_of (replicate k 1 ++ sh) = size_of sh.
Proof. induction k as [|k IH]; simpl; [done|]. rewrite <- IH. simpl. lia. Qed.

Lemma strip_ones_size k sh sh' :
  strip_ones k sh = Some sh' → size_of sh' = size_of sh.
Proof.
  revert sh. induction k as [|k IH]; intros sh; simpl; [by intros [= ->]|].
  destruct sh as [|[|[|?]] sh0]; try done.
  intros H. rewrite (IH _ H). simpl. lia.
Qed.

Lemma broadcast_to_length b dst r :
  wf b → broadcast_to b dst = Some r → length r = size_of dst.
Proof.
  intros Hwf. unfold broadcast_to.
  destruct (align_shape (shape b) (length dst)) as [sh|] eqn:Ha; [|done].
  cbn [mbind option_bind]. destruct (broadcastable sh dst); [|done].
  apply broadcast_elems_length.
  rewrite Hwf. unfold align_shape in Ha. case_decide.
  - injection Ha as <-. by rewrite size_of_ones.
  - by rewrite (strip_ones_size _ _ _ Ha).
Qed.

Lemma setitem_wf a i b a' :
  wf a → wf b → setitem a i b = Ok a' → wf a' ∧ shape a' = shape a.
Proof.
  unfold setitem, wf. intros Ha Hb.
  destruct (shape a) as [|n sh] eqn:Hs; [done|].
  case_decide as Hi; [|done].
  destruct (broadcast_to b sh) as [row|] eqn:Hrow; [|done].
  intros [= <-]. simpl. split; [|done].
  apply (broadcast_to_length b sh row Hb) in Hrow.
  rewrite !length_app, length_take, length_drop, Hrow, Ha, size_of_cons.
  nia.
Qed.

Lemma fill_wf fs g idxs a a' :
  foldM (fill_body fs g) a idxs = Ok a' →
  (∀ f x, f ∈ fs → g f = Ok x → wf x) →
  wf a → wf a' ∧ shape a' = shape a.
Proof.
  intros Hfold Hg. revert a Hfold.
  induction idxs as [|i idxs IH]; intros a; [by intros [= <-]|].
  rewrite foldM_cons, fill_body_eq.
  destruct (fs !! i) as [f|] eqn:Hf; [|done]. simpl.
  destruct (g f) as [x|] eqn:Hx; [|done]. simpl.
  destruct (setitem a i x) as [a1|] eqn:Hset; [|done]. simpl.
  intros Hfold Ha.
  apply setitem_wf in Hset as [Hwf1 Hs1];
    [|done|eapply Hg; [by eapply list_elem_of_lookup_2|done]].
  destruct (IH a1 Hfold Hwf1) as [? ?]. split; [done | congruence].
Qed.

Lemma zeros_wf sh : wf (zeros sh).
Proof. unfold wf. simpl. apply length_replicate. Qed.

Lemma map_elems_wf f a : wf a → wf (map_elems f a).
Proof. unfold wf. simpl. by rewrite length_fmap. Qed.

(** Whenever a request computes and returns stacks, for frames whose
    arrays hold as many elements as their shapes say: the image stack
    has shape (N, 3, h, w) or (N, 1, h, w) and the label stack shape
    (N, j, d), with N the number of frames, (h, w) the first two
    extents of the first frame's image and (j, d) the shape of its
    [gtorig]; and both stacks hold as many elements as their shapes
    say. *)
Theorem returned_stacks_well_formed m self n nz s I L :
  first_named (_imgSeqs self) n = Some s →
  image_cache m self !! n = None →
  Forall (λ f, wf (color f) ∧ wf (dpt f) ∧ wf (gt3Dcrop f)) (data s) →
  (imgStack m self n nz).1 = Ok (Stacks I L) →
  ∃ f0,
    data s !! 0 = Some f0 ∧
    shape I = length (data s)
              :: (match m with RGB => 3 | Depth => 1 end)
              :: take 2 (shape (match m with RGB => color f0 | Depth => dpt f0 end)) ∧
    shape L = length (data s) :: shape (gtorig f0) ∧
    wf I ∧ wf L.
Proof.
  intros Hn Hc Hfs Hreq. rewrite Forall_forall in Hfs.
  apply (imgStack_miss_inv m self n nz s I L Hn Hc) in Hreq.
  assert (∀ f x, f ∈ data s → label_of s f = Ok x → wf x) as Hlabel.
  { intros f x Hf. unfold label_of.
    destruct (cube2 s) as [c|]; [|done]. simpl. intros [= <-].
    apply norm_label_wf. by apply Hfs. }
  destruct m; simpl in Hreq.
  - apply compute_rgb_loops in Hreq
      as (f0 & h & w & c & j & d & H0 & Hs & Hg & Himg & Hlbl).
    apply fill_wf in Himg as [HwfI HsI]; [| |apply zeros_wf].
    + apply fill_wf in Hlbl as [HwfL HsL]; [|done|apply zeros_wf].
      exists f0. rewrite Hs, Hg. by repeat split.
    + intros f x Hf [= <-]. destruct nz; simpl;
        repeat apply map_elems_wf; by apply Hfs.
  - apply compute_depth_loops in Hreq
      as (f0 & h & w & j & d & H0 & Hs & Hg & Himg & Hlbl).
    apply fill_wf in Himg as [HwfI HsI]; [| |apply zeros_wf].
    + apply fill_wf in Hlbl as [HwfL HsL]; [|done|apply zeros_wf].
      exists f0. rewrite Hs, Hg. by repeat split.
    + intros f x Hf. unfold norm_depth.
      destruct (com2 f) as [z|]; [|by destruct nz].
      destruct (cube2 s) as [c|]; [|by destruct nz].
      destruct nz; simpl; intros [= <-];
        repeat apply map_elems_wf; by apply Hfs.
Qed.

Lemma returned_stacks_well_formed_witness :
  ∃ I L,
    first_named (_imgSeqs sample) "b" = Some seq_b ∧
    image_cache Depth sample !! "b"%string = None ∧
    Forall (λ f, wf (color f) ∧ wf (dpt f) ∧ wf (gt3Dcrop f)) (data seq_b) ∧
    (imgStack Depth sample "b" true).1 = Ok (Stacks I L) ∧
    ∃ f0,
      data seq_b !! 0 = Some f0 ∧
      shape I = length (data seq_b) :: 1 :: take 2 (shape (dpt f0)) ∧
      shape L = length (data seq_b) :: shape (gtorig f0) ∧
      wf I ∧ wf L.
Proof.
  eexists _, _.
  assert (first_named (_imgSeqs sample) "b" = Some seq_b) as H1
    by (vm_compute; reflexivity).
  assert (Forall (λ f, wf (color f) ∧ wf (dpt f) ∧ wf (gt3Dcrop f))
            (data seq_b)) as H3 by (repeat constructor).
  assert ((imgStack Depth sample "b" true).1 = Ok (Stacks _ _)) as H4
    by (vm_compute; reflexivity).
  split; [exact H1|]. split; [reflexivity|]. split; [exact H3|].
  split; [exact H4|].
  exact (returned_stacks_well_formed Depth sample "b" true seq_b _ _
           H1 eq_refl H3 H4).
Defined.

(** ** Depth maps of different shapes *)

Lemma foldM_app {A B} (body : A → B → result A) acc xs ys :
  foldM body acc (xs ++ ys) = acc' ← foldM body acc xs; foldM body acc' ys.
Proof.
  revert acc. induction xs as [|x xs IH]; intros acc; [done|].
  simpl. destruct (body acc x); simpl; [apply IH | done].
Qed.

Lemma setitem_raises a n sh i x :
  shape a = n :: sh → i < n → broadcast_to x sh = None →
  setitem a i x = Raise ValueError.
Proof.
  intros Ha Hi Hb. unfold setitem. rewrite Ha.
  rewrite decide_True by done. by rewrite Hb.
Qed.

(** The loop gets through a prefix of frames whose arrays fit. *)
Lemma fill_prefix_ok fs g n sh a k :
  shape a = n :: sh → k ≤ n → k ≤ length fs →
  (∀ i f, i < k → fs !! i = Some f →
          ∃ x, g f = Ok x ∧ is_Some (broadcast_to x sh)) →
  ∃ a', foldM (fill_body fs g) a (seq 0 k) = Ok a' ∧ shape a' = n :: sh.
Proof.
  intros Ha. induction k as [|k IH]; intros Hn Hk Hrows.
  - exists a. done.
  - destruct IH as (a1 & Hfold & Ha1); [lia | lia | |].
    { intros i f Hi. apply Hrows. lia. }
    rewrite seq_S, foldM_app, Hfold. cbn [mbind result_bind plus].
    rewrite foldM_cons, fill_body_eq.
    destruct (lookup_lt_is_Some_2 fs k) as [f Hf]; [lia|].
    rewrite Hf. cbn [of_option mbind result_bind].
    destruct (Hrows k f) as (x & Hx & [row Hrow]); [lia | done |].
    rewrite Hx. cbn [mbind result_bind].
    unfold setitem. rewrite Ha1. rewrite decide_True by lia. rewrite Hrow.
    cbn [mbind result_bind foldM]. eexists. split; [reflexivity|]. done.
Qed.

(** A depth map whose number of rows is neither that of the stack nor 1
    cannot be written into a block of the stack. *)
Lemma broadcast_rows_mismatch x h w h' w' :
  shape x = [h'; w'] → h' ≠ h → h' ≠ 1 → broadcast_to x [1; h; w] = None.
Proof.
  intros Hx Hh H1. unfold broadcast_to, align_shape. rewrite Hx.
  rewrite decide_True by (simpl; lia).
  cbn [length Nat.sub replicate app mbind option_bind].
  destruct (broadcastable _ _); [|done].
  rewrite broadcast_elems_cons.
  rewrite mapM_chunks_None; [done| |lia].
  intros c. rewrite broadcast_elems_cons.
  destruct (mapM _ _); [|done]. cbn [mbind option_bind].
  repeat case_decide; done.
Qed.

(** When the frames before some frame have the shapes of the first one
    and that frame's depth map has another number of rows (and not a
    single row), a depth request that finds nothing cached raises
    [ValueError] and leaves the object as it was: shapes are checked by
    the assignment alone, frame by frame. *)
Theorem depth_request_shape_mismatch self n nz s pre f post h w j d c h' w' :
  first_named (_imgSeqs self) n = Some s →
  _dptStacks self !! n = None →
  data s = pre ++ f :: post → pre ≠ [] →
  cube2 s = Ok c →
  Forall (depth_frame_ok h w j d) pre →
  length (com f) = 3 → shape (dpt f) = [h'; w'] → h' ≠ h → h' ≠ 1 →
  imgStackDepthOnly self n nz = (Raise ValueError, self).
Proof.
  intros Hn Hc Hdata Hpre Hcube Hfs Hcom Hshape Hh H1.
  apply (imgStack_miss_raise Depth self n nz s); [done..|].
  simpl. unfold compute_depth.
  destruct pre as [|f0 pre']; [done|].
  assert (data s !! 0 = Some f0) as H0 by (by rewrite Hdata).
  rewrite H0. cbn [of_option mbind result_bind].
  pose proof (Forall_inv Hfs) as (Hd0 & _ & Hg0 & _).
  rewrite Hd0, Hg0. cbn [unpack2 mbind result_bind].
  set (k := length (f0 :: pre')).
  assert (length (data s) = k + S (length post)) as Hlen
    by (rewrite Hdata, length_app; done).
  assert (∀ i f', i < k → data s !! i = Some f' → depth_frame_ok h w j d f')
    as Hok.
  { intros i f' Hi Hf'. rewrite Hdata, lookup_app_l in Hf' by done.
    by eapply Forall_lookup_1. }
  destruct (fill_prefix_ok (data s) (norm_depth nz s) (length (data s))
              [1; h; w] (zeros [length (data s); 1; h; w]) k)
    as (a1 & Himg & Ha1); [done | lia | lia | |].
  { intros i f' Hi Hf'.
    destruct (Hok i f' Hi Hf') as (Hd & Hwf & _ & _ & _ & Hcom').
    eexists. split;
      [apply norm_depth_eq; [by apply com2_default | done]|].
    rewrite <- Hd. eexists.
    apply (broadcast_to_lead1 (mk_ndarray (shape (dpt f')) _)).
    unfold wf. simpl. by rewrite length_fmap. }
  destruct (fill_prefix_ok (data s) (label_of s) (length (data s))
              [j; d] (zeros [length (data s); j; d]) k)
    as (l1 & Hlbl & Hl1); [done | lia | lia | |].
  { intros i f' Hi Hf'.
    destruct (Hok i f' Hi Hf') as (_ & _ & _ & Hs & Hwf & _).
    exists (norm_label f' c). split; [by apply label_of_eq|].
    assert (shape (norm_label f' c) = [j; d]) as Hsh by done.
    rewrite <- Hsh. eexists. by apply broadcast_to_same, norm_label_wf. }
  pose proof (pair_loop_join s (norm_depth nz s) _ _ _ _ _ Himg Hlbl) as Hpair.
  rewrite Hlen, seq_app.
  change (foldM ?body ?acc (seq 0 k ++ seq (0 + k) (S (length post))))
    with (foldM (pair_body s (norm_depth nz s)) acc
            (seq 0 k ++ seq (0 + k) (S (length post)))).
  rewrite foldM_app. rewrite <- Hlen, Hpair. cbn [mbind result_bind seq].
  rewrite foldM_cons, pair_body_eq.
  assert (data s !! (0 + k) = Some f) as ->
    by (rewrite Hdata; by apply list_lookup_middle).
  cbn [of_option mbind result_bind].
  rewrite (norm_depth_eq nz s f _ c (com2_default f Hcom) Hcube).
  cbn [mbind result_bind]. unfold store_frame. cbn [fst].
  rewrite (setitem_raises a1 (length (data s)) [1; h; w]); [done | done | |].
  - rewrite Hlen. lia.
  - by apply broadcast_rows_mismatch with h' w'.
Qed.

Lemma depth_request_shape_mismatch_witness :
  first_named (_imgSeqs sample_bad) "m" = Some seq_mixed ∧
  _dptStacks sample_bad !! "m"%string = None ∧
  data seq_mixed = [frame22] ++ frame32 :: [] ∧ [frame22] ≠ [] ∧
  cube2 seq_mixed = Ok 200%Q ∧
  Forall (depth_frame_ok 2 2 1 3) [frame22] ∧
  length (com frame32) = 3 ∧ shape (dpt frame32) = [3; 2] ∧ 3 ≠ 2 ∧ 3 ≠ 1 ∧
  imgStackDepthOnly sample_bad "m" true = (Raise ValueError, sample_bad).
Proof.
  assert (first_named (_imgSeqs sample_bad) "m" = Some seq_mixed) as H1
    by (vm_compute; reflexivity).
  assert ([frame22] ≠ []) as H4 by discriminate.
  assert (cube2 seq_mixed = Ok 200%Q) as H5 by (vm_compute; reflexivity).
  assert (Forall (depth_frame_ok 2 2 1 3) [frame22]) as H6
    by (repeat constructor).
  assert (3 ≠ 2) as H9 by lia.
  assert (3 ≠ 1) as H10 by lia.
  repeat (split; [first [exact H1 | exact H4 | exact H5 | exact H6
                        | exact H9 | exact H10 | reflexivity]|]).
  exact (depth_request_shape_mismatch sample_bad "m" true seq_mixed
           [frame22] frame32 [] 2 2 1 3 200%Q 3 2
           H1 eq_refl eq_refl H4 H5 H6 eq_refl eq_refl H9 H10).
Defined.
